(** * A wavetable synthesiser voice: shallow embedding and properties

    Embedding of [Source/SynthUsingMidiInputTutorial_01.h]:
    [WavetableOscillator], [SineWaveSound::createWavetable] and
    [SineWaveVoice].

    The C++ code computes with [float] (IEEE binary32) and [double]
    (IEEE binary64).  The program is written once, over an interface
    [FloatOps] that names every arithmetic operation, conversion and
    literal the source uses.  Its instance [IEEE] is bit-level
    binary32/binary64 arithmetic, round to nearest even, built on
    [SpecFloat]; it computes, and concrete runs of the code are evaluated
    in it.

    The properties of the note lifecycle, of rendering and of the wavetable
    are proved for every instance of the interface, hence for IEEE
    arithmetic.  The range of the oscillator index and the table positions
    the oscillator reads are proved in the IEEE instance itself, from the
    rounding of its addition and subtraction.

    What the source takes from elsewhere is a parameter ([std::sin],
    [juce::MidiMessage::getMidiNoteInHertz]) or is modelled from the JUCE
    documentation ([juce::AudioSampleBuffer], the fields of
    [juce::SynthesiserVoice] and its [clearCurrentNote]).  Integers are
    unbounded, except for the [unsigned int] arithmetic of the table index,
    which wraps. *)

From Stdlib Require Import ZArith List Bool Lia.
From Stdlib Require Import Floats.SpecFloat.
Import ListNotations.

Local Open Scope Z_scope.

(** ** Arithmetic interface *)

Class FloatOps : Type := {
  float  : Type;
  double : Type;
  (* float *)
  f_zero : float;                          (* 0.0f *)
  f_add : float -> float -> float;
  f_sub : float -> float -> float;
  f_mul : float -> float -> float;
  f_div : float -> float -> float;
  f_gt  : float -> float -> bool;          (* a > b *)
  f_of_int : Z -> float;                   (* (float) n; also int promoted to float *)
  f_to_uint : float -> Z;                  (* (unsigned int) x: truncation *)
  f_of_double : double -> float;           (* (float) d *)
  (* double *)
  d_of_float : float -> double;            (* float promoted to double *)
  d_of_int : Z -> double;                  (* (double) n; also int promoted to double *)
  d_add : double -> double -> double;
  d_mul : double -> double -> double;
  d_div : double -> double -> double;
  d_eq : double -> double -> bool;         (* a == b *)
  d_gt : double -> double -> bool;         (* a > b *)
  d_le : double -> double -> bool;         (* a <= b *)
  (* double literals of the source *)
  d_zero : double;                         (* 0.0 *)
  d_one : double;                          (* 1.0 *)
  lit_0_025 : double;                      (* 0.025 *)
  lit_0_99 : double;                       (* 0.99 *)
  lit_0_005 : double;                      (* 0.005 *)
  twoPi : double                           (* juce::MathConstants<double>::twoPi *)
}.

(** The two facts about comparisons that the control flow relies on. *)
Class FloatOpsLaws (A : FloatOps) : Prop := {
  d_gt_not_eq : forall x y : double, d_gt x y = true -> d_eq x y = false;
  d_gt_irrefl : forall x : double, d_gt x x = false
}.

(** ** IEEE 754 instance *)

Module IEEE.

Definition prec32 : Z := 24.
Definition emax32 : Z := 128.
Definition prec64 : Z := 53.
Definition emax64 : Z := 1024.

(** Re-rounding of a value into a format (exact when it fits). *)
Definition round_to (prec emax : Z) (x : spec_float) : spec_float :=
  match x with
  | S754_finite s m e => binary_round prec emax s m e
  | _ => x
  end.

Definition of_Z (prec emax : Z) (n : Z) : spec_float :=
  binary_normalize prec emax n 0 false.

(** Truncation toward zero.  The C++ conversion is defined only when the
    truncated value fits [unsigned int]; NaN and infinities give 0 here. *)
Definition sf_trunc (x : spec_float) : Z :=
  match x with
  | S754_finite s m e =>
      let a := if 0 <=? e then Z.pos m * 2 ^ e else Z.pos m / 2 ^ (- e) in
      if s then - a else a
  | _ => 0
  end.

Definition sf_gtb (x y : spec_float) : bool := SFltb y x.

(** A datum of the binary32 format: a zero, an infinity, NaN, or a finite
    number whose mantissa and exponent fit the format.  Every [float] of
    the C++ program is one. *)
Definition is_binary32 (x : spec_float) : bool := valid_binary prec32 emax32 x.

(** A finite binary32 number. *)
Definition finite32 (x : spec_float) : bool :=
  match x with
  | S754_zero _ => true
  | S754_finite _ m e => bounded prec32 emax32 m e
  | _ => false
  end.

(** A decimal literal [n / d], correctly rounded to binary64. *)
Definition lit64 (n d : Z) : spec_float :=
  SFdiv prec64 emax64 (of_Z prec64 emax64 n) (of_Z prec64 emax64 d).

#[export] Instance ieee_ops : FloatOps := {|
  float := spec_float;
  double := spec_float;
  f_zero := S754_zero false;
  f_add := SFadd prec32 emax32;
  f_sub := SFsub prec32 emax32;
  f_mul := SFmul prec32 emax32;
  f_div := SFdiv prec32 emax32;
  f_gt := sf_gtb;
  f_of_int := of_Z prec32 emax32;
  f_to_uint := sf_trunc;
  f_of_double := round_to prec32 emax32;
  d_of_float := round_to prec64 emax64;
  d_of_int := of_Z prec64 emax64;
  d_add := SFadd prec64 emax64;
  d_mul := SFmul prec64 emax64;
  d_div := SFdiv prec64 emax64;
  d_eq := SFeqb;
  d_gt := sf_gtb;
  d_le := SFleb;
  d_zero := S754_zero false;
  d_one := of_Z prec64 emax64 1;
  lit_0_025 := lit64 25 1000;
  lit_0_99 := lit64 99 100;
  lit_0_005 := lit64 5 1000;
  twoPi := S754_finite false 7074237752028440 (-50)
|}.

End IEEE.

(** ** Values of binary floating-point numbers

    The finite number [S754_finite s m e] has the magnitude [m * 2^e], and
    the exponents of a format are at least its [emin].  Magnitudes are
    compared as integers, counted in units of [2^emin]: [weightOf e] is
    [2^e] and [scaledValue m e] is [m * 2^e] in that unit. *)

Definition weightOf (prec emax e : Z) : Z := 2 ^ (e - SpecFloat.emin prec emax).

Definition scaledValue (prec emax : Z) (m : positive) (e : Z) : Z :=
  Z.pos m * weightOf prec emax e.

Definition weight32 (e : Z) : Z := weightOf IEEE.prec32 IEEE.emax32 e.

Definition scaled32 (m : positive) (e : Z) : Z :=
  scaledValue IEEE.prec32 IEEE.emax32 m e.

(** ** The program *)

Section Program.
Context {A : FloatOps}.

(** *** Sample buffers

    [juce::AudioSampleBuffer] is a list of channels, each a list of
    samples.  Reads and writes outside a channel are undefined in C++
    (JUCE asserts the bounds in debug builds); here a read outside gives
    [f_zero] and a write outside changes nothing. *)

Definition AudioSampleBuffer : Type := list (list float).

Definition getNumChannels (b : AudioSampleBuffer) : nat := length b.
Definition getNumSamples (b : AudioSampleBuffer) : Z :=
  Z.of_nat (length (nth 0%nat b [])).
Definition getReadPointer (b : AudioSampleBuffer) (channel : nat) : list float :=
  nth channel b [].

(** [p[i]] *)
Definition read (p : list float) (i : Z) : float := nth (Z.to_nat i) p f_zero.

(** [l[i] = f (l[i])] *)
Fixpoint alter_nth {X : Type} (f : X -> X) (i : nat) (l : list X) {struct l} : list X :=
  match l with
  | [] => []
  | x :: r =>
      match i with
      | O => f x :: r
      | S k => x :: alter_nth f k r
      end
  end.

(** [setSize (numChannels, numSamples)] followed by [clear()] *)
Definition clearedBuffer (numChannels : nat) (numSamples : Z) : AudioSampleBuffer :=
  repeat (repeat f_zero (Z.to_nat numSamples)) numChannels.

(** [addSample (destChannel, destSample, valueToAdd)]:
    [channels[destChannel][destSample] += valueToAdd] *)
Definition addSample (b : AudioSampleBuffer) (destChannel : nat)
    (destSample : Z) (valueToAdd : float) : AudioSampleBuffer :=
  if 0 <=? destSample
  then alter_nth (alter_nth (fun x => f_add x valueToAdd) (Z.to_nat destSample))
         destChannel b
  else b.

(** The sample at a position of a channel, when the position exists. *)
Definition getSample (b : AudioSampleBuffer) (channel : nat) (pos : Z) : option float :=
  if 0 <=? pos then nth_error (nth channel b []) (Z.to_nat pos) else None.

(** *** WavetableOscillator *)

Record WavetableOscillator : Type := mkOsc {
  wavetable : AudioSampleBuffer;   (* const reference to the shared table *)
  tableSize : Z;
  currentIndex : float;
  tableDelta : float
}.

(** Constructor: [tableSize (wavetable.getNumSamples() - 1)],
    [currentIndex = 0.0f], [tableDelta = 0.0f]. *)
Definition newWavetableOscillator (wavetableToUse : AudioSampleBuffer) : WavetableOscillator :=
  {| wavetable := wavetableToUse;
     tableSize := getNumSamples wavetableToUse - 1;
     currentIndex := f_zero;
     tableDelta := f_zero |}.

Definition setFrequency (o : WavetableOscillator) (frequency sampleRate : float)
  : WavetableOscillator :=
  let tableSizeOverSampleRate := f_div (f_of_int (tableSize o)) sampleRate in
  {| wavetable := wavetable o;
     tableSize := tableSize o;
     currentIndex := currentIndex o;
     tableDelta := f_mul frequency tableSizeOverSampleRate |}.

(** [unsigned int] arithmetic wraps modulo 2^32. *)
Definition uint (n : Z) : Z := n mod 2 ^ 32.

(** Returns the sample and the oscillator after the call. *)
Definition getNextSample (o : WavetableOscillator) : float * WavetableOscillator :=
  let index0 := f_to_uint (currentIndex o) in
  let index1 := uint (index0 + 1) in
  let table := getReadPointer (wavetable o) 0 in
  let value0 := read table index0 in
  let value1 := read table index1 in
  let currentSample := f_add value0 (f_mul (f_of_int 1) (f_sub value1 value0)) in
  let advanced := f_add (currentIndex o) (tableDelta o) in
  let wrapped :=
    if f_gt advanced (f_of_int (tableSize o))
    then f_sub advanced (f_of_int (tableSize o))
    else advanced in
  (currentSample,
   {| wavetable := wavetable o;
      tableSize := tableSize o;
      currentIndex := wrapped;
      tableDelta := tableDelta o |}).

(** *** SineWaveSound *)

(** [std::sin] is not part of the repository: it is a parameter. *)
Variable std_sin : double -> double.

Definition harmonics : list Z := [1; 2; 3; 4; 5; 6; 7; 8].

(** [const unsigned int tableSize = 1 << 24] *)
Definition SineWaveSound_tableSize : Z := 2 ^ 24.

(** The inner loop [for (unsigned int i = 0; i < tableSize; ++i)]; [n] counts
    the iterations that remain. *)
Fixpoint sampleLoop (n : nat) (i : Z) (harmonic : Z) (angleDelta currentAngle : double)
    (samples : list float) : list float :=
  match n with
  | O => samples
  | S k =>
      let sample := std_sin currentAngle in
      let samples' :=
        alter_nth (fun x => f_add x (f_div (f_of_double sample) (f_of_int (harmonic + 1))))
                  (Z.to_nat i) samples in
      sampleLoop k (i + 1) harmonic angleDelta (d_add currentAngle angleDelta) samples'
  end.

(** The outer loop over [harmonics], from index [harmonic] on; [hs] are the
    entries that remain. *)
Fixpoint harmonicLoop (hs : list Z) (harmonic : Z) (tblSize : Z)
    (samples : list float) : list float :=
  match hs with
  | [] => samples
  | h :: rest =>
      let angleDelta :=
        d_mul (d_div twoPi (d_of_int (uint (tblSize - 1)))) (d_of_int h) in
      let samples1 := sampleLoop (Z.to_nat tblSize) 0 harmonic angleDelta d_zero samples in
      let samples2 := alter_nth (fun _ => read samples1 0) (Z.to_nat tblSize) samples1 in
      harmonicLoop rest (harmonic + 1) tblSize samples2
  end.

(** [createWavetable], for a table size ([SineWaveSound_tableSize] in the
    source). *)
Definition createWavetable (tblSize : Z) : AudioSampleBuffer :=
  let waveTable := clearedBuffer 1 (tblSize + 1) in
  let samples := getReadPointer waveTable 0 in
  [harmonicLoop harmonics 0 tblSize samples].

Record SineWaveSound : Type := mkSound { waveTable : AudioSampleBuffer }.

Definition newSineWaveSound : SineWaveSound :=
  {| waveTable := createWavetable SineWaveSound_tableSize |}.

Definition getWaveTable (s : SineWaveSound) : AudioSampleBuffer := waveTable s.

(** *** SineWaveVoice *)

(** [juce::MidiMessage::getMidiNoteInHertz] belongs to the JUCE library: it
    is a parameter. *)
Variable getMidiNoteInHertz : Z -> double.

(** The fields of [SineWaveVoice], after those of its base class
    [juce::SynthesiserVoice] that the code reads or writes.  [osc] is a
    pointer that the constructor leaves unset; it is read only while
    [notePlaying], which only [startNote] sets, after it has set [osc]. *)
Record SineWaveVoice : Type := mkVoice {
  currentSampleRate : double;
  currentlyPlayingNote : Z;
  currentPlayingMidiChannel : Z;
  currentlyPlayingSound : option SineWaveSound;
  level : double;
  tailOff : double;
  notePlaying : bool;
  osc : WavetableOscillator
}.

(** The constructors: [level = 0.0], [tailOff = 0.0], [notePlaying = false];
    the base class starts with no note, no sound, and a rate of 44100. *)
Definition newSineWaveVoice (unsetOsc : WavetableOscillator) : SineWaveVoice :=
  {| currentSampleRate := d_of_int 44100;
     currentlyPlayingNote := -1;
     currentPlayingMidiChannel := 0;
     currentlyPlayingSound := None;
     level := d_zero;
     tailOff := d_zero;
     notePlaying := false;
     osc := unsetOsc |}.

Definition getSampleRate (v : SineWaveVoice) : double := currentSampleRate v.

(** [juce::SynthesiserVoice::clearCurrentNote]: [currentlyPlayingNote = -1],
    [currentlyPlayingSound = nullptr], [currentPlayingMidiChannel = 0]. *)
Definition clearCurrentNote (v : SineWaveVoice) : SineWaveVoice :=
  {| currentSampleRate := currentSampleRate v;
     currentlyPlayingNote := -1;
     currentPlayingMidiChannel := 0;
     currentlyPlayingSound := None;
     level := level v;
     tailOff := tailOff v;
     notePlaying := notePlaying v;
     osc := osc v |}.

Definition set_level (x : double) (v : SineWaveVoice) : SineWaveVoice :=
  {| currentSampleRate := currentSampleRate v;
     currentlyPlayingNote := currentlyPlayingNote v;
     currentPlayingMidiChannel := currentPlayingMidiChannel v;
     currentlyPlayingSound := currentlyPlayingSound v;
     level := x;
     tailOff := tailOff v;
     notePlaying := notePlaying v;
     osc := osc v |}.

Definition set_tailOff (x : double) (v : SineWaveVoice) : SineWaveVoice :=
  {| currentSampleRate := currentSampleRate v;
     currentlyPlayingNote := currentlyPlayingNote v;
     currentPlayingMidiChannel := currentPlayingMidiChannel v;
     currentlyPlayingSound := currentlyPlayingSound v;
     level := level v;
     tailOff := x;
     notePlaying := notePlaying v;
     osc := osc v |}.

Definition set_notePlaying (x : bool) (v : SineWaveVoice) : SineWaveVoice :=
  {| currentSampleRate := currentSampleRate v;
     currentlyPlayingNote := currentlyPlayingNote v;
     currentPlayingMidiChannel := currentPlayingMidiChannel v;
     currentlyPlayingSound := currentlyPlayingSound v;
     level := level v;
     tailOff := tailOff v;
     notePlaying := x;
     osc := osc v |}.

Definition set_osc (x : WavetableOscillator) (v : SineWaveVoice) : SineWaveVoice :=
  {| currentSampleRate := currentSampleRate v;
     currentlyPlayingNote := currentlyPlayingNote v;
     currentPlayingMidiChannel := currentPlayingMidiChannel v;
     currentlyPlayingSound := currentlyPlayingSound v;
     level := level v;
     tailOff := tailOff v;
     notePlaying := notePlaying v;
     osc := x |}.

Definition startNote (v : SineWaveVoice) (midiNoteNumber : Z) (velocity : float)
    (sound : SineWaveSound) : SineWaveVoice :=
  let v1 := set_level (d_mul (d_of_float velocity) lit_0_025) v in
  let v2 := set_tailOff d_zero v1 in
  let waveTable := getWaveTable sound in
  let v3 := set_osc (newWavetableOscillator waveTable) v2 in
  let cyclesPerSecond := getMidiNoteInHertz midiNoteNumber in
  let v4 := set_osc (setFrequency (osc v3) (f_of_double cyclesPerSecond)
                                  (f_of_double (getSampleRate v3))) v3 in
  set_notePlaying true v4.

Definition stopNote (v : SineWaveVoice) (allowTailOff : bool) : SineWaveVoice :=
  if allowTailOff
  then (if d_eq (tailOff v) d_zero then set_tailOff d_one v else v)
  else set_notePlaying false (clearCurrentNote v).

(** [for (auto i = outputBuffer.getNumChannels(); --i >= 0;)
       outputBuffer.addSample (i, startSample, currentSample);]
    with [i] the value of the counter before its decrement. *)
Fixpoint addToChannels (i : nat) (outputBuffer : AudioSampleBuffer)
    (startSample : Z) (currentSample : float) : AudioSampleBuffer :=
  match i with
  | O => outputBuffer
  | S k => addToChannels k (addSample outputBuffer k startSample currentSample)
             startSample currentSample
  end.

(** The loop of the branch [tailOff > 0.0]; [n] counts the iterations that
    [while (--numSamples >= 0)] still allows.  [currentSample] is a [double]
    and [addSample] takes a [float]. *)
Fixpoint releaseLoop (n : nat) (v : SineWaveVoice) (outputBuffer : AudioSampleBuffer)
    (startSample : Z) : SineWaveVoice * AudioSampleBuffer :=
  match n with
  | O => (v, outputBuffer)
  | S k =>
      let (s, o) := getNextSample (osc v) in
      let currentSample := d_mul (d_mul (d_of_float s) (level v)) (tailOff v) in
      let outputBuffer' :=
        addToChannels (getNumChannels outputBuffer) outputBuffer startSample
          (f_of_double currentSample) in
      let v1 := set_tailOff (d_mul (tailOff v) lit_0_99) (set_osc o v) in
      if d_le (tailOff v1) lit_0_005
      then (set_notePlaying false (clearCurrentNote v1), outputBuffer')
      else releaseLoop k v1 outputBuffer' (startSample + 1)
  end.

(** The loop of the other branch. *)
Fixpoint sustainLoop (n : nat) (v : SineWaveVoice) (outputBuffer : AudioSampleBuffer)
    (startSample : Z) : SineWaveVoice * AudioSampleBuffer :=
  match n with
  | O => (v, outputBuffer)
  | S k =>
      let (s, o) := getNextSample (osc v) in
      let currentSample := d_mul (d_of_float s) (level v) in
      let outputBuffer' :=
        addToChannels (getNumChannels outputBuffer) outputBuffer startSample
          (f_of_double currentSample) in
      sustainLoop k (set_osc o v) outputBuffer' (startSample + 1)
  end.

Definition renderNextBlock (v : SineWaveVoice) (outputBuffer : AudioSampleBuffer)
    (startSample numSamples : Z) : SineWaveVoice * AudioSampleBuffer :=
  if notePlaying v
  then if d_gt (tailOff v) d_zero
       then releaseLoop (Z.to_nat numSamples) v outputBuffer startSample
       else sustainLoop (Z.to_nat numSamples) v outputBuffer startSample
  else (v, outputBuffer).

End Program.

(** ** Vocabulary of the documentation *)

Section Documented.
Context {A : FloatOps}.

(** The voice states.  A voice is Idle when it is not playing and holds no
    note; it is Playing while [notePlaying], sustaining or releasing by the
    test [tailOff > 0.0] that [renderNextBlock] makes. *)
Definition noteCleared (v : SineWaveVoice) : Prop :=
  currentlyPlayingNote v = -1 /\
  currentlyPlayingSound v = None /\
  currentPlayingMidiChannel v = 0.

Definition Idle (v : SineWaveVoice) : Prop :=
  notePlaying v = false /\ noteCleared v.

Definition Sustaining (v : SineWaveVoice) : Prop :=
  notePlaying v = true /\ d_gt (tailOff v) d_zero = false.

Definition Releasing (v : SineWaveVoice) : Prop :=
  notePlaying v = true /\ d_gt (tailOff v) d_zero = true.

(** [0 <= currentIndex < tableSize], with the comparison of the source. *)
Definition indexInRange (o : WavetableOscillator) : bool :=
  negb (f_gt f_zero (currentIndex o)) &&
  f_gt (f_of_int (tableSize o)) (currentIndex o).

(** [0 <= tableDelta] *)
Definition deltaNonNegative (o : WavetableOscillator) : bool :=
  negb (f_gt f_zero (tableDelta o)).


(** The index after [currentIndex += tableDelta], before the wrap. *)
Definition advancedIndex (o : WavetableOscillator) : float :=
  f_add (currentIndex o) (tableDelta o).

(** Linear interpolation as documented: [value0 + frac * (value1 - value0)]
    with [frac] the fractional part of [currentIndex]. *)
Definition interpolatedSample (o : WavetableOscillator) : float :=
  let index0 := f_to_uint (currentIndex o) in
  let index1 := uint (index0 + 1) in
  let frac := f_sub (currentIndex o) (f_of_int index0) in
  let table := getReadPointer (wavetable o) 0 in
  let value0 := read table index0 in
  let value1 := read table index1 in
  f_add value0 (f_mul frac (f_sub value1 value0)).

(** [stop] as documented: tail-off when allowed and not yet releasing,
    otherwise an immediate stop. *)
Definition stopAsDocumented (v : SineWaveVoice) (allowTailOff : bool) : SineWaveVoice :=
  if allowTailOff && d_eq (tailOff v) d_zero
  then set_tailOff d_one v
  else set_notePlaying false (clearCurrentNote v).

(** The oscillator after [k] calls of [getNextSample], and the sample its
    next call returns. *)
Fixpoint oscAfter (k : nat) (o : WavetableOscillator) : WavetableOscillator :=
  match k with
  | O => o
  | S j => oscAfter j (snd (getNextSample o))
  end.

Definition oscSample (k : nat) (o : WavetableOscillator) : float :=
  fst (getNextSample (oscAfter k o)).

(** [tailOff] after [k] multiplications by 0.99. *)
Fixpoint decayed (k : nat) (t : double) : double :=
  match k with
  | O => t
  | S j => decayed j (d_mul t lit_0_99)
  end.

(** What a voice mixes at the [j]-th position of a block. *)
Definition releaseSample (v : SineWaveVoice) (j : nat) : float :=
  f_of_double
    (d_mul (d_mul (d_of_float (oscSample j (osc v))) (level v)) (decayed j (tailOff v))).

Definition sustainSample (v : SineWaveVoice) (j : nat) : float :=
  f_of_double (d_mul (d_of_float (oscSample j (osc v))) (level v)).

(** The number of samples a releasing voice renders when [n] are asked for:
    it stops after the first one that brings [tailOff] to 0.005 or below. *)
Fixpoint releasedCount (n : nat) (t : double) : nat :=
  match n with
  | O => O
  | S k =>
      if d_le (d_mul t lit_0_99) lit_0_005 then 1%nat
      else S (releasedCount k (d_mul t lit_0_99))
  end.

(** The samples a voice contributes to a block of [n] positions. *)
Definition voiceOutput (v : SineWaveVoice) (n : nat) : list float :=
  if notePlaying v
  then if d_gt (tailOff v) d_zero
       then map (releaseSample v) (seq 0 (releasedCount n (tailOff v)))
       else map (sustainSample v) (seq 0 n)
  else [].

(** [currentAngle] after [k] additions of [angleDelta]. *)
Fixpoint angleAfter (k : nat) (angleDelta currentAngle : double) : double :=
  match k with
  | O => currentAngle
  | S j => angleAfter j angleDelta (d_add currentAngle angleDelta)
  end.

(** Adding a list of samples to every channel from position [start] on,
    pointwise. *)
Definition mixedAt (b : AudioSampleBuffer) (start : Z) (xs : list float)
    (channel : nat) (pos : Z) : option float :=
  if (start <=? pos) && (pos <? start + Z.of_nat (length xs))
  then option_map (fun old => f_add old (nth (Z.to_nat (pos - start)) xs f_zero))
         (getSample b channel pos)
  else getSample b channel pos.

(** [0 <= currentIndex <= tableSize], with the comparison of the source:
    the range the index stays in when a sum of exactly [tableSize] is
    counted in. *)
Definition indexInClosedRange (o : WavetableOscillator) : bool :=
  negb (f_gt f_zero (currentIndex o)) &&
  negb (f_gt (currentIndex o) (f_of_int (tableSize o))).

(** [tableDelta <= tableSize] *)
Definition deltaAtMostTableSize (o : WavetableOscillator) : bool :=
  negb (f_gt (tableDelta o) (f_of_int (tableSize o))).

(** What the harmonic [h], at position [harmonic] of the configuration, adds
    to sample [i]: [(float) std::sin (currentAngle) / (harmonic + 1)], with
    [currentAngle] reached from 0.0 by [i] additions of
    [angleDelta = twoPi / (double) (tableSize - 1) * h]. *)
Definition harmonicTerm (std_sin : double -> double) (tblSize h harmonic : Z) (i : nat)
  : float :=
  let angleDelta :=
    d_mul (d_div twoPi (d_of_int (uint (tblSize - 1)))) (d_of_int h) in
  f_div (f_of_double (std_sin (angleAfter i angleDelta d_zero)))
        (f_of_int (harmonic + 1)).

(** The terms of the harmonics [hs], from position [harmonic] of the
    configuration on, added one after the other to [acc], in [float]. *)
Fixpoint accumulatedHarmonics (std_sin : double -> double) (hs : list Z)
    (harmonic tblSize : Z) (i : nat) (acc : float) : float :=
  match hs with
  | [] => acc
  | h :: rest =>
      accumulatedHarmonics std_sin rest (harmonic + 1) tblSize i
        (f_add acc (harmonicTerm std_sin tblSize h harmonic i))
  end.

End Documented.

(** ** Further vocabulary *)

Section Composition.
Context {A : FloatOps}.

(** A [tailOff] that tests [> 0.0] and, once multiplied by 0.99, does not
    test [<= 0.005], still tests [> 0.0]: what a voice needs to be found
    releasing again by the next call of [renderNextBlock]. *)
Definition DecayKeepsReleasing : Prop :=
  forall x : double,
    d_gt x d_zero = true ->
    d_le (d_mul x lit_0_99) lit_0_005 = false ->
    d_gt (d_mul x lit_0_99) d_zero = true.

(** The samples of the oscillator's table, and the two positions a call of
    [getNextSample] reads. *)
Definition table (o : WavetableOscillator) : list float :=
  getReadPointer (wavetable o) 0.

Definition index0 (o : WavetableOscillator) : Z := f_to_uint (currentIndex o).
Definition index1 (o : WavetableOscillator) : Z := uint (index0 o + 1).

End Composition.

(** ** Concrete states used to run the code

    All are states of the IEEE instance. *)

Module Run.

Definition F (n : Z) : @float IEEE.ieee_ops := @f_of_int IEEE.ieee_ops n.
Definition Fq (n d : Z) : @float IEEE.ieee_ops :=
  @f_div IEEE.ieee_ops (F n) (F d).
Definition D (n : Z) : @double IEEE.ieee_ops := @d_of_int IEEE.ieee_ops n.
Definition Dq (n d : Z) : @double IEEE.ieee_ops :=
  @d_div IEEE.ieee_ops (D n) (D d).

(** A table of size 2 with its guard sample: 0, 1, 0. *)
Definition smallTable : @AudioSampleBuffer IEEE.ieee_ops := [[F 0; F 1; F 0]].

Definition smallSound : @SineWaveSound IEEE.ieee_ops := mkSound smallTable.

(** An oscillator on [smallTable] at index [i] with increment [d]. *)
Definition oscAt (i d : @float IEEE.ieee_ops) : @WavetableOscillator IEEE.ieee_ops :=
  mkOsc smallTable 2 i d.


(** A freshly constructed voice. *)
Definition freshVoice : @SineWaveVoice IEEE.ieee_ops :=
  newSineWaveVoice (oscAt (F 0) (F 0)).

(** A stand-in for [getMidiNoteInHertz]: 440 Hz for every note. *)
Definition hz440 (note : Z) : @double IEEE.ieee_ops := D 440.

(** A voice playing note 69 on [smallTable], with [tailOff = t]. *)
Definition playingVoice (t : @double IEEE.ieee_ops) : @SineWaveVoice IEEE.ieee_ops :=
  {| currentSampleRate := D 44100;
     currentlyPlayingNote := 69;
     currentPlayingMidiChannel := 1;
     currentlyPlayingSound := Some smallSound;
     level := Dq 1 40;
     tailOff := t;
     notePlaying := true;
     osc := oscAt (Fq 1 2) (Fq 1 4) |}.

(** A stereo block of four samples, all 1. *)
Definition onesBlock : @AudioSampleBuffer IEEE.ieee_ops :=
  [[F 1; F 1; F 1; F 1]; [F 1; F 1; F 1; F 1]].

(** A stand-in for [std::sin] in runs: the polynomial [x - x^3 / 6],
    computed in binary64.  What is proved of the wavetable holds for every
    function in its place. *)
Definition sinStandIn (x : @double IEEE.ieee_ops) : @double IEEE.ieee_ops :=
  SFsub IEEE.prec64 IEEE.emax64 x
    (@d_div IEEE.ieee_ops (@d_mul IEEE.ieee_ops (@d_mul IEEE.ieee_ops x x) x) (D 6)).

End Run.

(** * Properties *)

(** ** The comparison laws hold in the IEEE instance *)

Lemma IEEE_compare_swap (x y : spec_float) :
  SFcompare y x = option_map CompOpp (SFcompare x y).
Proof.
  destruct x as [[]|[]| |[] m1 e1], y as [[]|[]| |[] m2 e2]; simpl; try reflexivity.
  - rewrite (Z.compare_antisym e1 e2).
    destruct (e1 ?= e2) eqn:E; simpl; try reflexivity.
    rewrite (Pos.compare_cont_antisym m1 m2 Eq). simpl.
    destruct (Pos.compare_cont Eq m1 m2); reflexivity.
  - rewrite (Z.compare_antisym e1 e2).
    destruct (e1 ?= e2) eqn:E; simpl; try reflexivity.
    rewrite (Pos.compare_cont_antisym m1 m2 Eq). simpl.
    destruct (Pos.compare_cont Eq m1 m2); reflexivity.
Qed.

Lemma IEEE_compare_refl_not_Lt (x : spec_float) : SFcompare x x <> Some Lt.
Proof.
  destruct x as [[]|[]| |[] m e]; simpl; try discriminate;
    rewrite Z.compare_refl;
    assert (H : Pos.compare_cont Eq m m = Eq) by apply Pos.compare_refl;
    rewrite H; discriminate.
Qed.

#[export] Instance ieee_laws : FloatOpsLaws IEEE.ieee_ops.
Proof.
  split; simpl; unfold IEEE.sf_gtb, SFltb, SFeqb.
  - intros x y H. rewrite (IEEE_compare_swap y x).
    destruct (SFcompare y x) as [[]|]; simpl in *; congruence.
  - intros x. pose proof (IEEE_compare_refl_not_Lt x) as H.
    destruct (SFcompare x x) as [[]|]; congruence.
Qed.

(** ** The note lifecycle of a voice *)

Section VoiceLifecycle.
Context {A : FloatOps} {L : FloatOpsLaws A}.
Variable getMidiNoteInHertz : Z -> double.

Lemma clearCurrentNote_cleared (v : SineWaveVoice) : noteCleared (clearCurrentNote v).
Proof. repeat split. Qed.

Lemma stopNote_immediate_Idle (v : SineWaveVoice) : Idle (stopNote v false).
Proof. repeat split. Qed.

Lemma newSineWaveVoice_Idle (o : WavetableOscillator) : Idle (newSineWaveVoice o).
Proof. repeat split. Qed.

Lemma Idle_fixed_by_clear (v : SineWaveVoice) :
  Idle v -> set_notePlaying false (clearCurrentNote v) = v.
Proof.
  intros [Hp [Hn [Hs Hc]]]. destruct v; simpl in *; subst; reflexivity.
Qed.

(** C2, as amended.  [stopNote] has three cases.  With [allowTailOff] and
    [tailOff == 0.0] it sets [tailOff] to 1.0 and nothing else; with
    [allowTailOff] and [tailOff] different from 0 it changes nothing; without
    [allowTailOff] it clears the note and leaves the voice Idle, keeping
    [level], [tailOff] and the oscillator. *)
Theorem stopNote_cases (v : SineWaveVoice) (allowTailOff : bool) :
  let v' := stopNote v allowTailOff in
  match allowTailOff, d_eq (tailOff v) d_zero with
  | true, true => v' = set_tailOff d_one v /\ tailOff v' = d_one /\
                  notePlaying v' = notePlaying v /\
                  currentlyPlayingNote v' = currentlyPlayingNote v
  | true, false => v' = v
  | false, _ => Idle v' /\ level v' = level v /\ tailOff v' = tailOff v /\
                osc v' = osc v
  end.
Proof.
  unfold stopNote. destruct allowTailOff; simpl.
  - destruct (d_eq (tailOff v) d_zero); simpl; auto.
  - destruct (d_eq (tailOff v) d_zero); repeat split.
Qed.

(** C9.  [stopNote] without tail-off on an Idle voice changes no field of
    the voice. *)
Theorem stopNote_Idle_noop (v : SineWaveVoice) :
  Idle v -> stopNote v false = v.
Proof. intros H. unfold stopNote. apply Idle_fixed_by_clear, H. Qed.

(** C10.  [stopNote] with tail-off on a voice whose [tailOff] is above 0
    changes no field of the voice: [tailOff] is not set back to 1.0, the note
    is kept and the voice is still releasing. *)
Theorem stopNote_releasing_noop (v : SineWaveVoice) :
  d_gt (tailOff v) d_zero = true ->
  stopNote v true = v /\
  tailOff (stopNote v true) = tailOff v /\
  currentlyPlayingNote (stopNote v true) = currentlyPlayingNote v /\
  (Releasing v -> Releasing (stopNote v true)).
Proof.
  intros H. unfold stopNote.
  rewrite (d_gt_not_eq _ _ H). simpl. tauto.
Qed.

(** C7.  [startNote] on any voice sets [level] to [velocity * 0.025] and
    [tailOff] to 0, gives the voice an oscillator on the sound's table at
    index 0 with the increment [setFrequency] computes from the note's
    frequency and the sample rate, and sets [notePlaying]: the voice is
    sustaining, and the next [renderNextBlock] runs the loop without decay. *)
Theorem startNote_resets (v : SineWaveVoice) (midiNoteNumber : Z)
    (velocity : float) (sound : SineWaveSound) :
  let v' := startNote getMidiNoteInHertz v midiNoteNumber velocity sound in
  level v' = d_mul (d_of_float velocity) lit_0_025 /\
  tailOff v' = d_zero /\
  currentIndex (osc v') = f_zero /\
  wavetable (osc v') = getWaveTable sound /\
  tableSize (osc v') = getNumSamples (getWaveTable sound) - 1 /\
  tableDelta (osc v') =
    f_mul (f_of_double (getMidiNoteInHertz midiNoteNumber))
          (f_div (f_of_int (tableSize (osc v'))) (f_of_double (currentSampleRate v))) /\
  notePlaying v' = true /\
  Sustaining v' /\
  (forall outputBuffer startSample numSamples,
      renderNextBlock v' outputBuffer startSample numSamples =
      sustainLoop (Z.to_nat numSamples) v' outputBuffer startSample).
Proof.
  simpl. repeat split.
  - apply d_gt_irrefl.
  - intros. unfold renderNextBlock. simpl. rewrite d_gt_irrefl. reflexivity.
Qed.

End VoiceLifecycle.

(** C2, as stated, fails: a voice that is already releasing and is asked to
    stop with tail-off is left as it is, neither cleared nor made Idle. *)
Lemma stopNote_not_as_documented :
  stopNote (Run.playingVoice (Run.Dq 1 2)) true = Run.playingVoice (Run.Dq 1 2) /\
  notePlaying (stopNote (Run.playingVoice (Run.Dq 1 2)) true) = true /\
  currentlyPlayingNote (stopNote (Run.playingVoice (Run.Dq 1 2)) true) = 69 /\
  notePlaying (stopAsDocumented (Run.playingVoice (Run.Dq 1 2)) true) = false /\
  stopNote (Run.playingVoice (Run.Dq 1 2)) true
    <> stopAsDocumented (Run.playingVoice (Run.Dq 1 2)) true.
Proof.
  repeat split; try reflexivity.
  intros H. apply (f_equal notePlaying) in H. vm_compute in H. discriminate.
Qed.

Lemma stopNote_Idle_noop_witness :
  Idle Run.freshVoice /\ stopNote Run.freshVoice false = Run.freshVoice.
Proof.
  assert (H : Idle Run.freshVoice) by (repeat split).
  split; [exact H | exact (stopNote_Idle_noop Run.freshVoice H)].
Defined.

Lemma stopNote_releasing_noop_witness :
  @d_gt IEEE.ieee_ops (tailOff (Run.playingVoice (Run.Dq 1 2))) d_zero = true /\
  stopNote (Run.playingVoice (Run.Dq 1 2)) true = Run.playingVoice (Run.Dq 1 2).
Proof.
  assert (H : @d_gt IEEE.ieee_ops (tailOff (Run.playingVoice (Run.Dq 1 2))) d_zero = true)
    by (vm_compute; reflexivity).
  split; [exact H | exact (proj1 (stopNote_releasing_noop _ H))].
Defined.

(** ** Rounding in a binary format

    [SpecFloat] defines the operations; what follows is what their rounding
    guarantees: a result that is exact when it fits the format, and that
    never passes a number of the format that bounds the exact result. *)

(** *** Binary digits *)

Lemma digits2_pos_bounds (m : positive) :
  2 ^ (Z.pos (digits2_pos m) - 1) <= Z.pos m < 2 ^ Z.pos (digits2_pos m).
Proof.
  induction m as [m IH|m IH|]; cbn [digits2_pos].
  - rewrite Pos2Z.inj_succ. replace (Z.succ (Z.pos (digits2_pos m)) - 1) with (Z.succ (Z.pos (digits2_pos m) - 1)) by lia.
    rewrite !Z.pow_succ_r by lia. lia.
  - rewrite Pos2Z.inj_succ. replace (Z.succ (Z.pos (digits2_pos m)) - 1) with (Z.succ (Z.pos (digits2_pos m) - 1)) by lia.
    rewrite !Z.pow_succ_r by lia. lia.
  - simpl. lia.
Qed.

Lemma Zdigits2_bounds (n : Z) :
  0 < n -> 2 ^ (Zdigits2 n - 1) <= n < 2 ^ Zdigits2 n.
Proof. destruct n as [|p|p]; try lia. intros _. apply digits2_pos_bounds. Qed.

Lemma Zdigits2_pos (n : Z) : 0 < n -> 0 < Zdigits2 n.
Proof. destruct n; simpl; lia. Qed.

Lemma Zdigits2_unique (n k : Z) :
  2 ^ (k - 1) <= n < 2 ^ k -> 0 < k -> Zdigits2 n = k.
Proof.
  intros [H1 H2] Hk.
  assert (Hn : 0 < n) by (pose proof (Z.pow_pos_nonneg 2 (k - 1)); lia).
  pose proof (Zdigits2_bounds n Hn) as [H3 H4].
  pose proof (Zdigits2_pos n Hn) as Hd.
  assert (k - 1 < Zdigits2 n) by (apply (Z.pow_lt_mono_r_iff 2); lia).
  assert (Zdigits2 n - 1 < k) by (apply (Z.pow_lt_mono_r_iff 2); lia).
  lia.
Qed.

Lemma Zdigits2_le (a b : Z) : 0 < a -> a <= b -> Zdigits2 a <= Zdigits2 b.
Proof.
  intros Ha Hab.
  pose proof (Zdigits2_bounds a Ha) as [H1 _].
  pose proof (Zdigits2_bounds b ltac:(lia)) as [_ H2].
  pose proof (Zdigits2_pos a Ha). pose proof (Zdigits2_pos b ltac:(lia)).
  assert (Zdigits2 a - 1 < Zdigits2 b) by (apply (Z.pow_lt_mono_r_iff 2); lia).
  lia.
Qed.

(* shr_1 *)
(** *** Shifting a mantissa to the right *)

Lemma shr_1_spec (mrs : shr_record) :
  0 <= shr_m mrs ->
  shr_m (shr_1 mrs) = shr_m mrs / 2 /\
  shr_r (shr_1 mrs) = Z.odd (shr_m mrs) /\
  shr_s (shr_1 mrs) = (shr_r mrs || shr_s mrs)%bool.
Proof.
  destruct mrs as [m r s]. simpl. intros H.
  destruct m as [|[p|p|]|p]; simpl; try lia; repeat split; try reflexivity.
  - apply Z.div_unique with 1; lia.
  - apply Z.div_unique with 0; lia.
Qed.

Section Iter.
Variable St : Type.
Variable f : St -> St.
Variable Q : Z -> St -> Prop.
Hypothesis step : forall k x, 0 <= k -> Q k x -> Q (k + 1) (f x).

Lemma iter_pos_invariant (n : positive) (k : Z) (x : St) :
  0 <= k -> Q k x -> Q (k + Z.pos n) (SpecFloat.iter_pos f n x).
Proof.
  revert k x. induction n as [n IH|n IH|]; intros k x Hk Hx; simpl.
  - replace (k + Z.pos n~1) with (k + 1 + Z.pos n + Z.pos n) by lia.
    apply IH; [lia|]. apply IH; [lia|]. apply step; assumption.
  - replace (k + Z.pos n~0) with (k + Z.pos n + Z.pos n) by lia.
    apply IH; [lia|]. apply IH; assumption.
  - apply step; assumption.
Qed.

End Iter.

Lemma iter_shr_1_spec (M : Z) (n : positive) :
  0 <= M ->
  let st := SpecFloat.iter_pos shr_1 n (Build_shr_record M false false) in
  shr_m st = M / 2 ^ Z.pos n /\
  (M mod 2 ^ Z.pos n = 0 -> shr_r st = false /\ shr_s st = false).
Proof.
  intros HM.
  pose (Q := fun (k : Z) (st : shr_record) =>
               shr_m st = M / 2 ^ k /\
               (M mod 2 ^ k = 0 -> shr_r st = false /\ shr_s st = false)).
  assert (Hstep : forall k x, 0 <= k -> Q k x -> Q (k + 1) (shr_1 x)).
  { intros k x Hk [Hm Hex]. unfold Q.
    assert (Hpk : 0 < 2 ^ k) by (apply Z.pow_pos_nonneg; lia).
    assert (Hx0 : 0 <= shr_m x) by (rewrite Hm; apply Z.div_pos; lia).
    destruct (shr_1_spec x Hx0) as [E1 [E2 E3]].
    rewrite Z.pow_add_r, Z.pow_1_r by lia.
    split.
    - rewrite E1, Hm. rewrite Z.div_div by lia. reflexivity.
    - intros Hmod.
      assert (Hmk : M mod 2 ^ k = 0).
      { rewrite Z.rem_mul_r in Hmod by lia.
        pose proof (Z.mod_pos_bound M (2 ^ k) Hpk).
        pose proof (Z.mod_pos_bound (M / 2 ^ k) 2 ltac:(lia)). nia. }
      destruct (Hex Hmk) as [Hr Hs].
      rewrite E2, E3, Hr, Hs. split; [|reflexivity].
      rewrite Z.rem_mul_r in Hmod by lia.
      rewrite Hmk in Hmod. rewrite Hm.
      assert (Hev : (M / 2 ^ k) mod 2 = 0) by nia.
      rewrite Zmod_odd in Hev. destruct (Z.odd (M / 2 ^ k)); [lia | reflexivity]. }
  pose proof (iter_pos_invariant shr_record shr_1 Q Hstep n 0
                (Build_shr_record M false false) ltac:(lia)) as H.
  simpl Z.add in H. apply H. unfold Q. simpl.
  rewrite Z.div_1_r. split; [reflexivity|]. auto.
Qed.

(** Rounding a non-negative mantissa never gives NaN nor a number of the
    other sign. *)
Lemma shr_1_nonneg (mrs : shr_record) : 0 <= shr_m mrs -> 0 <= shr_m (shr_1 mrs).
Proof.
  destruct mrs as [m r s]. simpl.
  destruct m as [|[p|p|]|p]; simpl; intros H; lia.
Qed.

Lemma iter_pos_shr_1_nonneg (n : positive) (mrs : shr_record) :
  0 <= shr_m mrs -> 0 <= shr_m (SpecFloat.iter_pos shr_1 n mrs).
Proof.
  revert mrs. induction n as [n IH|n IH|]; intros mrs H; simpl.
  - apply IH, IH, shr_1_nonneg, H.
  - apply IH, IH, H.
  - apply shr_1_nonneg, H.
Qed.

Lemma shr_fexp_nonneg (prec emax m e : Z) (l : location) :
  0 <= m -> 0 <= shr_m (fst (shr_fexp prec emax m e l)).
Proof.
  intros H. unfold shr_fexp, shr.
  assert (H0 : 0 <= shr_m (shr_record_of_loc m l)) by (destruct l as [|[]]; exact H).
  destruct (fexp prec emax (Zdigits2 m + e) - e); simpl; auto.
  apply iter_pos_shr_1_nonneg, H0.
Qed.

Lemma round_nearest_even_nonneg (m : Z) (l : location) :
  0 <= m -> 0 <= round_nearest_even m l.
Proof.
  intros H. unfold round_nearest_even.
  destruct l as [|[]]; try destruct (Z.even m); lia.
Qed.

Lemma binary_round_aux_sign (prec emax : Z) (sx : bool) (mx ex : Z) (lx : location) :
  0 <= mx ->
  binary_round_aux prec emax sx mx ex lx = S754_zero sx \/
  binary_round_aux prec emax sx mx ex lx = S754_infinity sx \/
  exists m e, binary_round_aux prec emax sx mx ex lx = S754_finite sx m e.
Proof.
  intros H. unfold binary_round_aux.
  pose proof (shr_fexp_nonneg prec emax mx ex lx H) as H1.
  destruct (shr_fexp prec emax mx ex lx) as [mrs' e'].
  cbn [fst] in H1.
  pose proof (shr_fexp_nonneg prec emax
                (round_nearest_even (shr_m mrs') (loc_of_shr_record mrs')) e' loc_Exact
                (round_nearest_even_nonneg _ _ H1)) as H2.
  destruct (shr_fexp prec emax (round_nearest_even _ _) e' loc_Exact) as [mrs'' e''].
  cbn [fst] in H2.
  destruct (shr_m mrs'') as [|m|m].
  - left. reflexivity.
  - destruct (e'' <=? emax - prec); [right; right; eauto | right; left; reflexivity].
  - lia.
Qed.

(** *** Rounding to a format *)

Section Round.
Variables prec emax : Z.
Hypothesis Hprec : 0 < prec.
Hypothesis Hemax : prec < emax.

Local Notation "'emin'" := (SpecFloat.emin prec emax).
Local Notation "'fexp'" := (SpecFloat.fexp prec emax).
Local Notation "'B'" := (weightOf prec emax).
Local Notation "'SV'" := (scaledValue prec emax).

Lemma weightOf_pos (e : Z) : emin <= e -> 0 < B e.
Proof. intros H. unfold weightOf. apply Z.pow_pos_nonneg; lia. Qed.

Lemma weightOf_add (e k : Z) : emin <= e -> 0 <= k -> B (e + k) = B e * 2 ^ k.
Proof.
  intros He Hk. unfold weightOf. replace (e + k - emin) with (e - emin + k) by lia.
  apply Z.pow_add_r; lia.
Qed.

Lemma fexp_ge_emin (x : Z) : emin <= fexp x.
Proof. unfold SpecFloat.fexp. lia. Qed.

Lemma shr_fexp_exact_input (mz : positive) (ez : Z) :
  ez <= fexp (Z.pos (digits2_pos mz) + ez) ->
  let n := fexp (Z.pos (digits2_pos mz) + ez) - ez in
  let r := shr_fexp prec emax (Z.pos mz) ez loc_Exact in
  snd r = ez + n /\
  shr_m (fst r) = Z.pos mz / 2 ^ n /\
  (Z.pos mz mod 2 ^ n = 0 -> loc_of_shr_record (fst r) = loc_Exact).
Proof.
  intros Hle n r. unfold r, shr_fexp, shr. cbn [Zdigits2 shr_record_of_loc].
  fold n. destruct n as [|p|p] eqn:En; try lia.
  - cbn [fst snd shr_m]. rewrite Z.pow_0_r, Z.div_1_r.
    repeat split; try lia.
  - cbn [fst snd].
    destruct (iter_shr_1_spec (Z.pos mz) p ltac:(lia)) as [H1 H2].
    repeat split; try assumption.
    intros Hmod. destruct (H2 Hmod) as [Hr Hs].
    destruct (SpecFloat.iter_pos shr_1 p _) as [m r0 s0]. simpl in *. subst. reflexivity.
Qed.

Lemma round_nearest_even_bounds (q : Z) (l : location) :
  q <= round_nearest_even q l <= q + 1 /\
  (l = loc_Exact -> round_nearest_even q l = q).
Proof.
  unfold round_nearest_even. destruct l as [|[]]; try destruct (Z.even q); split; try lia; try reflexivity; intros; try discriminate.
Qed.

Lemma pow2_pos (k : Z) : 0 <= k -> 0 < 2 ^ k.
Proof. intros; apply Z.pow_pos_nonneg; lia. Qed.

(** The mantissa kept by the first shift: between 1 and 2^prec - 1, and at
    least 2^(prec-1) above the smallest exponent. *)
Lemma kept_mantissa_bounds (mz : positive) (ez : Z) :
  emin <= ez ->
  ez <= fexp (Z.pos (digits2_pos mz) + ez) ->
  let e1 := fexp (Z.pos (digits2_pos mz) + ez) in
  let q := Z.pos mz / 2 ^ (e1 - ez) in
  1 <= q < 2 ^ prec /\ (emin < e1 -> 2 ^ (prec - 1) <= q).
Proof.
  intros Hez Hle e1 q.
  pose proof (digits2_pos_bounds mz) as [Hlo Hhi].
  set (d := Z.pos (digits2_pos mz)) in *.
  assert (Hd : 0 < d) by (unfold d; lia).
  unfold SpecFloat.fexp in e1, Hle. fold d in e1, Hle.
  destruct (Z.max_spec (d + ez - prec) emin) as [[Hc He]|[Hc He]].
  - (* subnormal: e1 = emin = ez *)
    assert (E1 : e1 = emin) by (unfold e1; lia).
    assert (Eez : ez = emin) by lia.
    unfold q. rewrite E1, Eez, Z.sub_diag, Z.pow_0_r, Z.div_1_r.
    split; [|lia]. split; [lia|].
    apply Z.lt_le_trans with (2 ^ d); [lia|].
    apply Z.pow_le_mono_r; lia.
  - (* normal: e1 = d + ez - prec *)
    assert (E1 : e1 = d + ez - prec) by (unfold e1; lia).
    assert (Hn : 0 <= d - prec) by lia.
    unfold q. rewrite E1. replace (d + ez - prec - ez) with (d - prec) by lia.
    assert (Hp2 : 0 < 2 ^ (d - prec)) by (apply pow2_pos; lia).
    assert (Hsplit1 : 2 ^ (d - 1) = 2 ^ (prec - 1) * 2 ^ (d - prec))
      by (rewrite <- Z.pow_add_r by lia; f_equal; lia).
    assert (Hsplit2 : 2 ^ d = 2 ^ prec * 2 ^ (d - prec))
      by (rewrite <- Z.pow_add_r by lia; f_equal; lia).
    assert (Hq1 : 2 ^ (prec - 1) <= Z.pos mz / 2 ^ (d - prec)).
    { apply Z.div_le_lower_bound; lia. }
    assert (Hq2 : Z.pos mz / 2 ^ (d - prec) < 2 ^ prec).
    { apply Z.div_lt_upper_bound; lia. }
    pose proof (pow2_pos (prec - 1) ltac:(lia)).
    split; [lia|]. intros _. exact Hq1.
Qed.

(** What [binary_round_aux] returns on a positive mantissa that needs no
    shift to the left. *)
Lemma binary_round_aux_core (mz : positive) (ez : Z) :
  emin <= ez ->
  ez <= fexp (Z.pos (digits2_pos mz) + ez) ->
  let e1 := fexp (Z.pos (digits2_pos mz) + ez) in
  let q := Z.pos mz / 2 ^ (e1 - ez) in
  exists q' : Z,
    q <= q' <= q + 1 /\
    (Z.pos mz mod 2 ^ (e1 - ez) = 0 -> q' = q) /\
    ((exists m2 e2,
        binary_round_aux prec emax false (Z.pos mz) ez loc_Exact = S754_finite false m2 e2 /\
        bounded prec emax m2 e2 = true /\
        Z.pos m2 * B e2 = q' * B e1) \/
     (binary_round_aux prec emax false (Z.pos mz) ez loc_Exact = S754_infinity false /\
      2 ^ (emax - emin) <= q' * B e1)).
Proof.
  intros Hez Hle e1 q.
  destruct (kept_mantissa_bounds mz ez Hez Hle) as [Hq Hqn]. fold e1 q in Hq, Hqn.
  destruct (shr_fexp_exact_input mz ez Hle) as [S1 [S2 S3]]. fold e1 in S1, S2, S3.
  unfold binary_round_aux.
  destruct (shr_fexp prec emax (Z.pos mz) ez loc_Exact) as [st1 e1'].
  cbn [fst snd] in S1, S2, S3.
  assert (E1 : e1' = e1) by lia. clear S1. subst e1'.
  fold q in S2. rewrite S2.
  destruct (round_nearest_even_bounds q (loc_of_shr_record st1)) as [Hq' Hex].
  set (q' := round_nearest_even q (loc_of_shr_record st1)) in *.
  exists q'. split; [exact Hq'|]. split; [intros Hm; apply Hex, S3, Hm|].
  assert (He1 : emin <= e1) by apply fexp_ge_emin.
  assert (Hq'pos : 0 < q') by lia.
  assert (Hp : 0 < 2 ^ prec) by (apply pow2_pos; lia).
  assert (Hp1 : 0 < 2 ^ (prec - 1)) by (apply pow2_pos; lia).
  assert (Hpp : 2 ^ prec = 2 * 2 ^ (prec - 1)).
  { replace prec with (Z.succ (prec - 1)) at 1 by lia. apply Z.pow_succ_r. lia. }
  pose proof (weightOf_pos e1 He1) as HB1.
  (* second shift *)
  unfold shr_fexp, shr.
  destruct (Z.eq_dec q' (2 ^ prec)) as [Htop|Hntop].
  - (* the rounded mantissa has prec + 1 digits: one more shift *)
    assert (Hdig : Zdigits2 q' = prec + 1).
    { apply Zdigits2_unique; [|lia]. replace (prec + 1 - 1) with prec by lia.
      rewrite Htop. split; [lia|]. rewrite Z.pow_add_r, Z.pow_1_r by lia. lia. }
    rewrite Hdig.
    assert (Hf2 : fexp (prec + 1 + e1) = e1 + 1) by (unfold SpecFloat.fexp; lia).
    rewrite Hf2. replace (e1 + 1 - e1) with 1 by lia.
    cbn [shr_record_of_loc SpecFloat.iter_pos fst snd].
    destruct (shr_1_spec (Build_shr_record q' false false) ltac:(simpl; lia)) as [T1 _].
    cbn [shr_m] in T1. rewrite T1.
    assert (Hhalf : q' / 2 = 2 ^ (prec - 1)).
    { rewrite Htop, Hpp. rewrite Z.mul_comm, Z.div_mul by lia. reflexivity. }
    rewrite Hhalf.
    destruct (2 ^ (prec - 1)) as [|m2|m2] eqn:Em2; try lia.
    assert (Hd2 : Z.pos (digits2_pos m2) = prec).
    { change (Z.pos (digits2_pos m2)) with (Zdigits2 (Z.pos m2)).
      apply Zdigits2_unique; [|lia]. rewrite <- Em2. lia. }
    assert (HV : Z.pos m2 * B (e1 + 1) = q' * B e1).
    { rewrite weightOf_add, Z.pow_1_r by lia. rewrite Htop, Hpp. ring. }
    destruct (Z.leb_spec (e1 + 1) (emax - prec)) as [Hfin|Hinf].
    + left. exists m2, (e1 + 1). split; [reflexivity|]. split; [|exact HV].
      unfold bounded, canonical_mantissa. rewrite Hd2.
      apply andb_true_iff. split; [|apply Z.leb_le; exact Hfin].
      apply Z.eqb_eq. unfold SpecFloat.fexp. lia.
    + right. split; [reflexivity|]. rewrite <- HV, <- Em2.
      unfold weightOf. rewrite <- Z.pow_add_r by lia.
      apply Z.pow_le_mono_r; lia.
  - (* no further shift *)
    assert (Hq'lt : q' < 2 ^ prec) by lia.
    assert (Hdig : Zdigits2 q' <= prec).
    { pose proof (Zdigits2_bounds q' Hq'pos) as [Hb _].
      pose proof (Zdigits2_pos q' Hq'pos).
      assert (Zdigits2 q' - 1 < prec) by (apply (Z.pow_lt_mono_r_iff 2); lia).
      lia. }
    assert (Hdign : emin < e1 -> Zdigits2 q' = prec).
    { intros Hn. apply Zdigits2_unique; [|lia]. specialize (Hqn Hn). lia. }
    assert (Hfe : fexp (Zdigits2 q' + e1) = e1).
    { unfold SpecFloat.fexp. destruct (Z.eq_dec e1 emin) as [E|E].
      - lia.
      - rewrite Hdign by lia. lia. }
    rewrite Hfe, Z.sub_diag. cbn [fst snd shr_record_of_loc shr_m].
    destruct q' as [|m2|m2] eqn:Eq'; try lia.
    assert (Hcanon : canonical_mantissa prec emax m2 e1 = true).
    { unfold canonical_mantissa. apply Z.eqb_eq. exact Hfe. }
    destruct (Z.leb_spec e1 (emax - prec)) as [Hfin|Hinf].
    + left. exists m2, e1. split; [reflexivity|]. split; [|reflexivity].
      unfold bounded. rewrite Hcanon. apply Z.leb_le. exact Hfin.
    + right. split; [reflexivity|].
      assert (Hn : emin < e1) by (unfold SpecFloat.emin in *; lia).
      specialize (Hqn Hn).
      apply Z.le_trans with (2 ^ (prec - 1) * B e1);
        [|apply Z.mul_le_mono_nonneg_r; lia].
      unfold weightOf. rewrite <- Z.pow_add_r by lia.
      apply Z.pow_le_mono_r; lia.
Qed.

Lemma Pos_iter_xO (m d : positive) : Z.pos (Pos.iter xO m d) = Z.pos m * 2 ^ Z.pos d.
Proof.
  induction d as [|d IH] using Pos.peano_ind.
  - simpl. lia.
  - rewrite Pos.iter_succ, Pos2Z.inj_xO, IH, Pos2Z.inj_succ, Z.pow_succ_r by lia. ring.
Qed.

Lemma shl_align_value (m : positive) (e e' : Z) :
  e' <= e ->
  Z.pos (fst (shl_align m e e')) = Z.pos m * 2 ^ (e - e') /\
  snd (shl_align m e e') = e'.
Proof.
  intros H. unfold shl_align.
  destruct (e' - e) as [|d|d] eqn:E; try lia.
  - replace (e - e') with 0 by lia. simpl. split; lia.
  - cbn [fst snd]. rewrite Pos_iter_xO. replace (e - e') with (Z.pos d) by lia. split; reflexivity.
Qed.

Lemma shl_align_id (m : positive) (e e' : Z) :
  e <= e' -> shl_align m e e' = (m, e).
Proof.
  intros H. unfold shl_align. destruct (e' - e) as [|d|d] eqn:E; try lia; reflexivity.
Qed.

Lemma Zdigits2_mul_pow2 (n k : Z) :
  0 < n -> 0 <= k -> Zdigits2 (n * 2 ^ k) = Zdigits2 n + k.
Proof.
  intros Hn Hk.
  pose proof (Zdigits2_bounds n Hn) as [H1 H2].
  pose proof (Zdigits2_pos n Hn) as Hd.
  pose proof (pow2_pos k Hk) as Hpk.
  apply Zdigits2_unique; [|lia].
  replace (Zdigits2 n + k - 1) with (Zdigits2 n - 1 + k) by lia.
  rewrite !Z.pow_add_r by lia. split; nia.
Qed.

(** What [binary_round] returns on a positive mantissa [P] at an exponent
    [e]: a value [V] on the grid of step [B e1] around [N = P * B e], equal
    to [N] when [N] is on the grid, and the float of that value unless it is
    too large. *)
Lemma binary_round_core (P : positive) (e : Z) :
  emin <= e ->
  let e1 := fexp (Z.pos (digits2_pos P) + e) in
  let N := Z.pos P * B e in
  exists V : Z,
    (N / B e1) * B e1 <= V <= (N / B e1 + 1) * B e1 /\
    (N mod B e1 = 0 -> V = N) /\
    ((exists m2 e2,
        binary_round prec emax false P e = S754_finite false m2 e2 /\
        bounded prec emax m2 e2 = true /\
        Z.pos m2 * B e2 = V) \/
     (binary_round prec emax false P e = S754_infinity false /\
      2 ^ (emax - emin) <= V)).
Proof.
  intros He e1 N.
  assert (He1 : emin <= e1) by apply fexp_ge_emin.
  pose proof (weightOf_pos e He) as HBe. pose proof (weightOf_pos e1 He1) as HB1.
  unfold binary_round. fold e1.
  destruct (Z_lt_le_dec e1 e) as [Hlt|Hge].
  - (* the mantissa is shifted to the left: exact *)
    destruct (shl_align_value P e e1 ltac:(lia)) as [Hm Hs].
    destruct (shl_align P e e1) as [mz ez]. cbn [fst snd] in Hm, Hs. subst ez.
    assert (Hdz : Z.pos (digits2_pos mz) = Z.pos (digits2_pos P) + (e - e1)).
    { change (Z.pos (digits2_pos mz)) with (Zdigits2 (Z.pos mz)).
      rewrite Hm. apply (Zdigits2_mul_pow2 (Z.pos P)); lia. }
    assert (Hfz : fexp (Z.pos (digits2_pos mz) + e1) = e1).
    { rewrite Hdz. replace (Z.pos (digits2_pos P) + (e - e1) + e1)
        with (Z.pos (digits2_pos P) + e) by lia. reflexivity. }
    destruct (binary_round_aux_core mz e1 He1 ltac:(lia)) as [q' [Hq' [Hex Hout]]].
    rewrite Hfz, Z.sub_diag, Z.pow_0_r, Z.div_1_r in *.
    assert (Eq' : q' = Z.pos mz) by (apply Hex; apply Z.mod_1_r).
    assert (HN : N = Z.pos mz * B e1).
    { unfold N. rewrite Hm. replace e with (e1 + (e - e1)) at 1 by lia.
      rewrite weightOf_add by lia. ring. }
    exists N. split; [|split; [auto|]].
    + rewrite HN, Z.div_mul by lia. lia.
    + rewrite Eq', <- HN in Hout. exact Hout.
  - (* the mantissa is shifted to the right, or kept *)
    rewrite shl_align_id by exact Hge.
    destruct (binary_round_aux_core P e He Hge) as [q' [Hq' [Hex Hout]]].
    fold e1 in Hq', Hex, Hout.
    set (n := e1 - e) in *.
    assert (Hn : 0 <= n) by (unfold n; lia).
    pose proof (pow2_pos n Hn) as Hpn.
    assert (HB : B e1 = B e * 2 ^ n).
    { replace e1 with (e + n) by (unfold n; lia). apply weightOf_add; lia. }
    assert (Hdiv : N / B e1 = Z.pos P / 2 ^ n).
    { unfold N. rewrite HB, (Z.mul_comm (B e)). apply Z.div_mul_cancel_r; lia. }
    assert (Hmod : N mod B e1 = (Z.pos P mod 2 ^ n) * B e).
    { unfold N. rewrite HB, (Z.mul_comm (B e)). apply Z.mul_mod_distr_r; lia. }
    exists (q' * B e1). rewrite Hdiv. split; [|split].
    + split; apply Z.mul_le_mono_nonneg_r; lia.
    + intros H0. rewrite Hmod in H0.
      assert (Hz : Z.pos P mod 2 ^ n = 0) by nia.
      rewrite (Hex Hz).
      pose proof (Z.div_mod (Z.pos P) (2 ^ n) ltac:(lia)) as Hdm.
      unfold N. rewrite HB. rewrite Hz in Hdm. nia.
    + exact Hout.
Qed.

(** Rounding does not pass a number that has at most [prec] digits at its
    exponent. *)
Lemma binary_round_le (P : positive) (e w g : Z) :
  emin <= e -> emin <= g -> 0 < w -> Zdigits2 w <= prec ->
  Z.pos P * B e <= w * B g ->
  w * B g < 2 ^ (emax - emin) ->
  exists m2 e2,
    binary_round prec emax false P e = S754_finite false m2 e2 /\
    bounded prec emax m2 e2 = true /\
    Z.pos m2 * B e2 <= w * B g.
Proof.
  intros He Hg Hw Hdw HNW Hfin.
  destruct (binary_round_core P e He) as [V [[Hlo Hhi] [Hex Hout]]].
  set (e1 := fexp (Z.pos (digits2_pos P) + e)) in *.
  set (N := Z.pos P * B e) in *.
  assert (He1 : emin <= e1) by apply fexp_ge_emin.
  pose proof (weightOf_pos e He) as HBe. pose proof (weightOf_pos e1 He1) as HB1.
  pose proof (weightOf_pos g Hg) as HBg.
  (* the bound is on the grid *)
  assert (He1g : e1 <= g).
  { pose proof (digits2_pos_bounds P) as [HP1 _].
    pose proof (Zdigits2_bounds w Hw) as [_ Hw2].
    pose proof (Zdigits2_pos w Hw) as Hdwp.
    set (d := Z.pos (digits2_pos P)) in *.
    assert (Hd : 0 < d) by (unfold d; lia).
    assert (Hlt : 2 ^ (d - 1 + (e - emin)) < 2 ^ (Zdigits2 w + (g - emin))).
    { rewrite !Z.pow_add_r by lia. fold (B e) (B g).
      apply Z.le_lt_trans with (Z.pos P * B e); [nia|].
      apply Z.le_lt_trans with (w * B g); [exact HNW|nia]. }
    apply Z.pow_lt_mono_r_iff in Hlt; [|lia|lia].
    unfold e1, SpecFloat.fexp. fold d. lia. }
  assert (HW : w * B g = (w * 2 ^ (g - e1)) * B e1).
  { replace g with (e1 + (g - e1)) at 1 by lia. rewrite weightOf_add by lia. ring. }
  assert (HVW : V <= w * B g).
  { destruct (Z.eq_dec (N mod B e1) 0) as [Hz|Hnz].
    - rewrite (Hex Hz). exact HNW.
    - pose proof (Z.div_mod N (B e1) ltac:(lia)) as Hdm.
      pose proof (Z.mod_pos_bound N (B e1) HB1) as Hmb.
      rewrite HW in *. set (k := w * 2 ^ (g - e1)) in *.
      assert (N / B e1 < k) by nia.
      nia. }
  destruct Hout as [[m2 [e2 [Hr [Hb Hv]]]]|[_ Hbig]]; [|lia].
  exists m2, e2. split; [exact Hr|]. split; [exact Hb|]. lia.
Qed.

(** Rounding is exact on a number that has at most [prec] digits at its
    exponent. *)
Lemma binary_round_exact (P : positive) (e : Z) :
  emin <= e -> Z.pos (digits2_pos P) <= prec ->
  Z.pos P * B e < 2 ^ (emax - emin) ->
  exists m2 e2,
    binary_round prec emax false P e = S754_finite false m2 e2 /\
    bounded prec emax m2 e2 = true /\
    Z.pos m2 * B e2 = Z.pos P * B e.
Proof.
  intros He Hd Hfin.
  destruct (binary_round_core P e He) as [V [_ [Hex Hout]]].
  set (e1 := fexp (Z.pos (digits2_pos P) + e)) in *.
  assert (He1 : emin <= e1) by apply fexp_ge_emin.
  assert (He1e : e1 <= e) by (unfold e1, SpecFloat.fexp; lia).
  pose proof (weightOf_pos e1 He1) as HB1.
  assert (HB : B e = B e1 * 2 ^ (e - e1)).
  { replace e with (e1 + (e - e1)) at 1 by lia. apply weightOf_add; lia. }
  assert (Hz : (Z.pos P * B e) mod B e1 = 0).
  { rewrite HB. replace (Z.pos P * (B e1 * 2 ^ (e - e1)))
      with (Z.pos P * 2 ^ (e - e1) * B e1) by ring.
    apply Z.mod_mul. lia. }
  rewrite (Hex Hz) in Hout.
  destruct Hout as [[m2 [e2 [Hr [Hb Hv]]]]|[_ Hbig]]; [|lia].
  exists m2, e2. auto.
Qed.

(** Finite numbers of the format, compared by their scaled values. *)

Lemma bounded_facts (m : positive) (e : Z) :
  bounded prec emax m e = true ->
  emin <= e /\ e <= emax - prec /\
  Z.pos (digits2_pos m) <= prec /\
  (emin < e -> Z.pos (digits2_pos m) = prec).
Proof.
  unfold bounded, canonical_mantissa. intros H.
  apply andb_true_iff in H. destruct H as [H1 H2].
  apply Z.eqb_eq in H1. apply Z.leb_le in H2.
  unfold SpecFloat.fexp in H1. repeat split; lia.
Qed.

Lemma scaledValue_pos (m : positive) (e : Z) : emin <= e -> 0 < SV m e.
Proof. intros H. unfold scaledValue. pose proof (weightOf_pos e H). nia. Qed.

Lemma scaledValue_lt_of_exponent (m1 m2 : positive) (e1 e2 : Z) :
  bounded prec emax m1 e1 = true -> bounded prec emax m2 e2 = true ->
  e1 < e2 -> SV m1 e1 < SV m2 e2.
Proof.
  intros H1 H2 Hlt.
  destruct (bounded_facts _ _ H1) as [A1 [_ [A3 _]]].
  destruct (bounded_facts _ _ H2) as [C1 [_ [_ C4]]].
  specialize (C4 ltac:(lia)).
  pose proof (digits2_pos_bounds m1) as [_ Hm1].
  pose proof (digits2_pos_bounds m2) as [Hm2 _].
  rewrite C4 in Hm2.
  assert (Hm1p : Z.pos m1 < 2 ^ prec).
  { apply Z.lt_le_trans with (2 ^ Z.pos (digits2_pos m1)); [lia|].
    apply Z.pow_le_mono_r; lia. }
  pose proof (weightOf_pos e1 A1) as HB1.
  assert (HB : B e2 = B e1 * 2 ^ (e2 - e1)).
  { replace e2 with (e1 + (e2 - e1)) at 1 by lia. apply weightOf_add; lia. }
  assert (H2k : 2 <= 2 ^ (e2 - e1)).
  { change 2 with (2 ^ 1) at 1. apply Z.pow_le_mono_r; lia. }
  assert (Hpp : 2 ^ prec = 2 * 2 ^ (prec - 1)).
  { replace prec with (Z.succ (prec - 1)) at 1 by lia. apply Z.pow_succ_r. lia. }
  pose proof (pow2_pos (prec - 1) ltac:(lia)).
  unfold scaledValue. rewrite HB.
  apply Z.lt_le_trans with (2 ^ prec * B e1).
  - apply Z.mul_lt_mono_pos_r; lia.
  - rewrite Hpp. replace (2 * 2 ^ (prec - 1) * B e1) with (2 ^ (prec - 1) * (B e1 * 2)) by ring.
    apply Z.mul_le_mono_nonneg; try lia.
    apply Z.mul_le_mono_nonneg_l; lia.
Qed.

Lemma SFcompare_finite (m1 m2 : positive) (e1 e2 : Z) :
  bounded prec emax m1 e1 = true -> bounded prec emax m2 e2 = true ->
  SFcompare (S754_finite false m1 e1) (S754_finite false m2 e2)
  = Some (SV m1 e1 ?= SV m2 e2).
Proof.
  intros H1 H2. cbn [SFcompare].
  destruct (Z.compare_spec e1 e2) as [E|E|E].
  - subst e2. destruct (bounded_facts _ _ H1) as [A1 _].
    pose proof (weightOf_pos e1 A1). unfold scaledValue.
    rewrite <- Zmult_compare_compat_r by lia.
    rewrite Pos.compare_cont_spec. change (Z.pos m1 ?= Z.pos m2) with (m1 ?= m2)%positive.
    destruct (m1 ?= m2)%positive; reflexivity.
  - pose proof (scaledValue_lt_of_exponent _ _ _ _ H1 H2 E) as Hlt.
    apply Z.compare_lt_iff in Hlt. rewrite Hlt. reflexivity.
  - pose proof (scaledValue_lt_of_exponent _ _ _ _ H2 H1 E) as Hlt.
    apply Z.compare_gt_iff in Hlt. rewrite Hlt. reflexivity.
Qed.

Lemma SFltb_finite (m1 m2 : positive) (e1 e2 : Z) :
  bounded prec emax m1 e1 = true -> bounded prec emax m2 e2 = true ->
  SFltb (S754_finite false m1 e1) (S754_finite false m2 e2) = true
  <-> SV m1 e1 < SV m2 e2.
Proof.
  intros H1 H2. unfold SFltb. rewrite (SFcompare_finite _ _ _ _ H1 H2).
  destruct (Z.compare_spec (SV m1 e1) (SV m2 e2)); split; intros; try lia; try discriminate; reflexivity.
Qed.

(** Equal canonical floats of the same sign have the same representation. *)
Lemma scaledValue_inj (m1 m2 : positive) (e1 e2 : Z) :
  bounded prec emax m1 e1 = true -> bounded prec emax m2 e2 = true ->
  SV m1 e1 = SV m2 e2 -> m1 = m2 /\ e1 = e2.
Proof.
  intros H1 H2 Hv.
  destruct (Z.lt_trichotomy e1 e2) as [E|[E|E]].
  - pose proof (scaledValue_lt_of_exponent _ _ _ _ H1 H2 E). lia.
  - subst e2. split; [|reflexivity].
    destruct (bounded_facts _ _ H1) as [A1 _]. pose proof (weightOf_pos e1 A1).
    unfold scaledValue in Hv. assert (Z.pos m1 = Z.pos m2) by nia. congruence.
  - pose proof (scaledValue_lt_of_exponent _ _ _ _ H2 H1 E). lia.
Qed.

(** *** Addition and subtraction of positive floats *)

Lemma aligned_value (m : positive) (e ez : Z) :
  emin <= ez -> ez <= e ->
  Z.pos (fst (shl_align m e ez)) * B ez = SV m e.
Proof.
  intros Hez Hle. destruct (shl_align_value m e ez Hle) as [Hv _].
  rewrite Hv. unfold scaledValue. replace e with (ez + (e - ez)) at 2 by lia.
  rewrite weightOf_add by lia. ring.
Qed.

Lemma SFadd_finite (mx my : positive) (ex ey : Z) :
  emin <= ex -> emin <= ey ->
  exists P : positive,
    SFadd prec emax (S754_finite false mx ex) (S754_finite false my ey)
    = binary_round prec emax false P (Z.min ex ey) /\
    Z.pos P * B (Z.min ex ey) = SV mx ex + SV my ey.
Proof.
  intros Hx Hy. cbn [SFadd cond_Zopp].
  set (ez := Z.min ex ey).
  assert (Hez : emin <= ez) by (unfold ez; lia).
  pose proof (aligned_value mx ex ez Hez ltac:(unfold ez; lia)) as Vx.
  pose proof (aligned_value my ey ez Hez ltac:(unfold ez; lia)) as Vy.
  set (a := fst (shl_align mx ex ez)) in *.
  set (b := fst (shl_align my ey ez)) in *.
  exists (a + b)%positive. split.
  - reflexivity.
  - rewrite Pos2Z.inj_add, Z.mul_add_distr_r, Vx, Vy. reflexivity.
Qed.

Lemma SFsub_finite (mx my : positive) (ex ey : Z) :
  emin <= ex -> emin <= ey ->
  SV my ey < SV mx ex ->
  exists P : positive,
    SFsub prec emax (S754_finite false mx ex) (S754_finite false my ey)
    = binary_round prec emax false P (Z.min ex ey) /\
    Z.pos P * B (Z.min ex ey) = SV mx ex - SV my ey.
Proof.
  intros Hx Hy Hlt. cbn [SFsub cond_Zopp].
  set (ez := Z.min ex ey).
  assert (Hez : emin <= ez) by (unfold ez; lia).
  pose proof (aligned_value mx ex ez Hez ltac:(unfold ez; lia)) as Vx.
  pose proof (aligned_value my ey ez Hez ltac:(unfold ez; lia)) as Vy.
  set (a := fst (shl_align mx ex ez)) in *.
  set (b := fst (shl_align my ey ez)) in *.
  pose proof (weightOf_pos ez Hez) as HB.
  assert (Hd : (Z.pos a - Z.pos b) * B ez = SV mx ex - SV my ey)
    by (rewrite Z.mul_sub_distr_r, Vx, Vy; reflexivity).
  destruct (Z.pos a - Z.pos b) as [|P|P] eqn:E; try nia.
  exists P. split; [reflexivity | exact Hd].
Qed.

End Round.

(** *** Binary32 *)

Lemma prec32_pos : 0 < IEEE.prec32. Proof. reflexivity. Qed.
Lemma prec32_lt_emax32 : IEEE.prec32 < IEEE.emax32. Proof. reflexivity. Qed.

Lemma emin32_eq : SpecFloat.emin IEEE.prec32 IEEE.emax32 = -149.
Proof. reflexivity. Qed.

Lemma weight32_eq (e : Z) : weight32 e = 2 ^ (e + 149).
Proof. unfold weight32, weightOf. rewrite emin32_eq. f_equal; lia. Qed.

(** [(float) n] for a positive [int]. *)
Lemma of_Z_int (n : Z) :
  0 < n < 2 ^ 31 ->
  exists mT eT,
    IEEE.of_Z IEEE.prec32 IEEE.emax32 n = S754_finite false mT eT /\
    bounded IEEE.prec32 IEEE.emax32 mT eT = true /\
    scaled32 mT eT <= weight32 31.
Proof.
  intros [Hn0 Hn1]. destruct n as [|P|P]; try lia.
  unfold IEEE.of_Z. cbn [binary_normalize].
  destruct (binary_round_le IEEE.prec32 IEEE.emax32 prec32_pos prec32_lt_emax32 P 0 1 31)
    as [m2 [e2 [Hr [Hb Hv]]]].
  - rewrite emin32_eq; lia.
  - rewrite emin32_eq; lia.
  - lia.
  - simpl. unfold IEEE.prec32. lia.
  - fold (weight32 0) (weight32 31). rewrite !weight32_eq.
    change (2 ^ (31 + 149)) with (2 ^ 31 * 2 ^ (0 + 149)).
    assert (0 < 2 ^ (0 + 149)) by (apply Z.pow_pos_nonneg; lia). nia.
  - vm_compute. reflexivity.
  - exists m2, e2. split; [exact Hr|]. split; [exact Hb|]. unfold scaled32, scaledValue, weight32. lia.
Qed.

Lemma below_overflow32 (x : Z) : x <= 2 * weight32 31 -> x < 2 ^ (IEEE.emax32 - SpecFloat.emin IEEE.prec32 IEEE.emax32).
Proof.
  intros H. apply Z.le_lt_trans with (2 * weight32 31); [exact H|]. vm_compute. reflexivity.
Qed.

Lemma weight32_succ (e : Z) : -149 <= e -> weight32 (e + 1) = 2 * weight32 e.
Proof.
  intros H. unfold weight32. rewrite weightOf_add by (rewrite ?emin32_eq; lia). rewrite Z.pow_1_r. ring.
Qed.

(** The wrap of [getNextSample] on two positive binary32 numbers, neither
    above [T], the value of [(float) tableSize]. *)
Lemma wrap_positive (mc md mT : positive) (ec ed eT : Z) :
  bounded IEEE.prec32 IEEE.emax32 mc ec = true ->
  bounded IEEE.prec32 IEEE.emax32 md ed = true ->
  bounded IEEE.prec32 IEEE.emax32 mT eT = true ->
  scaled32 mT eT <= weight32 31 ->
  scaled32 mc ec <= scaled32 mT eT ->
  scaled32 md ed <= scaled32 mT eT ->
  let T := S754_finite false mT eT in
  let s := SFadd IEEE.prec32 IEEE.emax32 (S754_finite false mc ec) (S754_finite false md ed) in
  let new := if SFltb T s then SFsub IEEE.prec32 IEEE.emax32 s T else s in
  exists mn en,
    new = S754_finite false mn en /\
    bounded IEEE.prec32 IEEE.emax32 mn en = true /\
    scaled32 mn en <= scaled32 mT eT /\
    (scaled32 mc ec < scaled32 mT eT -> scaled32 md ed < scaled32 mT eT -> s <> T ->
     scaled32 mn en < scaled32 mT eT).
Proof.
  intros Hbc Hbd HbT HvT Hvc Hvd T s new.
  destruct (bounded_facts IEEE.prec32 IEEE.emax32 _ _ HbT) as [TA [_ [TC _]]].
  destruct (bounded_facts IEEE.prec32 IEEE.emax32 _ _ Hbc) as [CA [_ [CC _]]].
  destruct (bounded_facts IEEE.prec32 IEEE.emax32 _ _ Hbd) as [DA [_ [DC _]]].
  rewrite emin32_eq in TA, CA, DA.
  destruct (SFadd_finite IEEE.prec32 IEEE.emax32 mc md ec ed
              ltac:(rewrite emin32_eq; lia) ltac:(rewrite emin32_eq; lia)) as [P [Hs HP]].
  fold (weight32 (Z.min ec ed)) (scaled32 mc ec) (scaled32 md ed) in HP.
  (* the sum is at most twice the larger operand *)
  assert (Hsum : exists ms es,
             s = S754_finite false ms es /\
             bounded IEEE.prec32 IEEE.emax32 ms es = true /\
             scaled32 ms es <= 2 * Z.max (scaled32 mc ec) (scaled32 md ed)).
  { unfold s. rewrite Hs.
    destruct (Z_le_gt_dec (scaled32 md ed) (scaled32 mc ec)) as [Hcd|Hcd].
    - destruct (binary_round_le IEEE.prec32 IEEE.emax32 prec32_pos prec32_lt_emax32
                  P (Z.min ec ed) (Z.pos mc) (ec + 1))
        as [ms [es [Hr [Hb Hv]]]].
      + rewrite emin32_eq; lia.
      + rewrite emin32_eq; lia.
      + lia.
      + exact CC.
      + fold (weight32 (Z.min ec ed)) (weight32 (ec + 1)). rewrite HP, weight32_succ by lia.
        unfold scaled32, scaledValue in *. fold (weight32 ec) in *. lia.
      + apply below_overflow32. fold (weight32 (ec + 1)). rewrite weight32_succ by lia.
        unfold scaled32, scaledValue in *. fold (weight32 ec) (weight32 eT) in *. lia.
      + exists ms, es. split; [exact Hr|]. split; [exact Hb|].
        fold (weight32 es) (weight32 (ec + 1)) in Hv. rewrite weight32_succ in Hv by lia.
        rewrite Z.max_l by lia.
        unfold scaled32, scaledValue in *. fold (weight32 ec) (weight32 es) in *. lia.
    - destruct (binary_round_le IEEE.prec32 IEEE.emax32 prec32_pos prec32_lt_emax32
                  P (Z.min ec ed) (Z.pos md) (ed + 1))
        as [ms [es [Hr [Hb Hv]]]].
      + rewrite emin32_eq; lia.
      + rewrite emin32_eq; lia.
      + lia.
      + exact DC.
      + fold (weight32 (Z.min ec ed)) (weight32 (ed + 1)). rewrite HP, weight32_succ by lia.
        unfold scaled32, scaledValue in *. fold (weight32 ed) in *. lia.
      + apply below_overflow32. fold (weight32 (ed + 1)). rewrite weight32_succ by lia.
        unfold scaled32, scaledValue in *. fold (weight32 ed) (weight32 eT) in *. lia.
      + exists ms, es. split; [exact Hr|]. split; [exact Hb|].
        fold (weight32 es) (weight32 (ed + 1)) in Hv. rewrite weight32_succ in Hv by lia.
        rewrite Z.max_r by lia.
        unfold scaled32, scaledValue in *. fold (weight32 ed) (weight32 es) in *. lia. }
  destruct Hsum as [ms [es [Es [Hbs Hvs]]]].
  destruct (bounded_facts IEEE.prec32 IEEE.emax32 _ _ Hbs) as [SA _].
  rewrite emin32_eq in SA.
  unfold new. rewrite Es. unfold T.
  destruct (SFltb (S754_finite false mT eT) (S754_finite false ms es)) eqn:Hwrap.
  - (* the sum passes T: the subtraction is exact *)
    apply (SFltb_finite IEEE.prec32 IEEE.emax32 prec32_pos _ _ _ _ HbT Hbs) in Hwrap.
    fold (scaled32 mT eT) (scaled32 ms es) in Hwrap.
    destruct (SFsub_finite IEEE.prec32 IEEE.emax32 ms mT es eT
                ltac:(rewrite emin32_eq; lia) ltac:(rewrite emin32_eq; lia) Hwrap)
      as [Pd [Hsub HPd]].
    assert (HeT : eT <= es).
    { destruct (Z_lt_le_dec es eT) as [Hlt|]; [|assumption].
      pose proof (scaledValue_lt_of_exponent IEEE.prec32 IEEE.emax32 prec32_pos _ _ _ _ Hbs HbT Hlt) as Hc.
      fold (scaled32 mT eT) (scaled32 ms es) in Hc. lia. }
    rewrite Z.min_r in Hsub, HPd by exact HeT.
    fold (weight32 eT) (scaled32 ms es) (scaled32 mT eT) in HPd.
    assert (HBT : 0 < weight32 eT) by (apply weightOf_pos; rewrite emin32_eq; lia).
    assert (HPle : Z.pos Pd <= Z.pos mT).
    { unfold scaled32, scaledValue in *. fold (weight32 eT) (weight32 es) (weight32 ec) (weight32 ed) in *. nia. }
    destruct (binary_round_exact IEEE.prec32 IEEE.emax32 prec32_pos prec32_lt_emax32 Pd eT)
      as [mn [en [Hr [Hb Hv]]]].
    + rewrite emin32_eq; lia.
    + apply Z.le_trans with (Z.pos (digits2_pos mT)); [|exact TC].
      apply (Zdigits2_le (Z.pos Pd) (Z.pos mT)); lia.
    + apply below_overflow32. fold (weight32 eT). rewrite HPd.
      assert (0 < weight32 31) by (apply weightOf_pos; rewrite emin32_eq; lia). lia.
    + exists mn, en. rewrite Hsub. split; [exact Hr|]. split; [exact Hb|].
      fold (weight32 en) (weight32 eT) in Hv.
      assert (Hn : scaled32 mn en = scaled32 ms es - scaled32 mT eT).
      { rewrite <- HPd. unfold scaled32, scaledValue. fold (weight32 en). exact Hv. }
      rewrite Hn. split; [lia|]. intros Hc Hd _. lia.
  - (* the sum does not pass T *)
    exists ms, es. split; [reflexivity|]. split; [exact Hbs|].
    assert (Hle : ~ scaled32 mT eT < scaled32 ms es).
    { intros Hc. apply (SFltb_finite IEEE.prec32 IEEE.emax32 prec32_pos _ _ _ _ HbT Hbs) in Hc.
      congruence. }
    fold (scaled32 mT eT) (scaled32 ms es) in Hle.
    split; [lia|]. intros _ _ Hne.
    destruct (Z.eq_dec (scaled32 ms es) (scaled32 mT eT)) as [Heq|Hneq]; [|lia].
    destruct (scaledValue_inj IEEE.prec32 IEEE.emax32 prec32_pos _ _ _ _ Hbs HbT Heq) as [-> ->].
    exfalso. apply Hne. reflexivity.
Qed.

(** A finite number that does not test below 0 is a zero or positive. *)
Lemma finite32_nonneg (x : spec_float) :
  IEEE.finite32 x = true -> SFltb x (S754_zero false) = false ->
  (exists z, x = S754_zero z) \/
  (exists m e, x = S754_finite false m e /\ bounded IEEE.prec32 IEEE.emax32 m e = true).
Proof.
  intros Hf H0. destruct x as [z|[]| |[] m e]; try discriminate.
  - left. eauto.
  - right. eauto.
Qed.

(** The wrap on finite numbers of the closed range [0, T]. *)
Lemma wrap_closed_range (ci d : spec_float) (mT : positive) (eT : Z) :
  bounded IEEE.prec32 IEEE.emax32 mT eT = true ->
  scaled32 mT eT <= weight32 31 ->
  let T := S754_finite false mT eT in
  IEEE.finite32 ci = true -> SFltb ci (S754_zero false) = false -> SFltb T ci = false ->
  IEEE.finite32 d = true -> SFltb d (S754_zero false) = false -> SFltb T d = false ->
  let s := SFadd IEEE.prec32 IEEE.emax32 ci d in
  let new := if SFltb T s then SFsub IEEE.prec32 IEEE.emax32 s T else s in
  IEEE.finite32 new = true /\
  SFltb new (S754_zero false) = false /\
  SFltb T new = false /\
  (SFltb ci T = true -> SFltb d T = true -> s <> T -> SFltb new T = true).
Proof.
  intros HbT HvT T Fc C0 CT Fd D0 DT s new.
  assert (Hle : forall m e, bounded IEEE.prec32 IEEE.emax32 m e = true ->
                  SFltb T (S754_finite false m e) = false -> scaled32 m e <= scaled32 mT eT).
  { intros m e Hb Hx.
    destruct (Z_le_gt_dec (scaled32 m e) (scaled32 mT eT)) as [|Hgt]; [assumption|].
    apply Z.gt_lt in Hgt.
    apply (SFltb_finite IEEE.prec32 IEEE.emax32 prec32_pos _ _ _ _ HbT Hb) in Hgt.
    unfold T in Hx. congruence. }
  destruct (finite32_nonneg ci Fc C0) as [[zc Ec]|[mc [ec [Ec Hbc]]]];
    destruct (finite32_nonneg d Fd D0) as [[zd Ed]|[md [ed [Ed Hbd]]]].
  - subst ci d. unfold new, s, T. destruct zc, zd; cbn; auto.
  - assert (Es : s = d) by (unfold s; subst ci d; reflexivity).
    unfold new. rewrite Es, DT. auto.
  - assert (Es : s = ci) by (unfold s; subst ci d; reflexivity).
    unfold new. rewrite Es, CT. auto.
  - subst ci d.
    destruct (wrap_positive mc md mT ec ed eT Hbc Hbd HbT HvT
                (Hle _ _ Hbc CT) (Hle _ _ Hbd DT))
      as [mn [en [En [Hbn [Hvn Hstrict]]]]].
    fold T s in En. fold new in En. fold T s in Hstrict.
    rewrite En. split; [exact Hbn|]. split; [reflexivity|]. split.
    + destruct (SFltb T (S754_finite false mn en)) eqn:E; [|reflexivity].
      apply (SFltb_finite IEEE.prec32 IEEE.emax32 prec32_pos _ _ _ _ HbT Hbn) in E.
      fold (scaled32 mT eT) (scaled32 mn en) in E. lia.
    + intros Hc Hd Hne.
      apply (SFltb_finite IEEE.prec32 IEEE.emax32 prec32_pos _ _ _ _ Hbn HbT).
      apply Hstrict; [| |exact Hne].
      * apply (SFltb_finite IEEE.prec32 IEEE.emax32 prec32_pos _ _ _ _ Hbc HbT). exact Hc.
      * apply (SFltb_finite IEEE.prec32 IEEE.emax32 prec32_pos _ _ _ _ Hbd HbT). exact Hd.
Qed.

(** A number below a positive finite one that does not test below 0 is
    finite, and is not above. *)
Lemma below_finite (x : spec_float) (mT : positive) (eT : Z) :
  IEEE.is_binary32 x = true ->
  SFltb x (S754_zero false) = false ->
  SFltb x (S754_finite false mT eT) = true ->
  IEEE.finite32 x = true /\ SFltb (S754_finite false mT eT) x = false.
Proof.
  intros Hv H0 HT. split.
  - destruct x as [z|[]| |[] m e]; try discriminate; try reflexivity. exact Hv.
  - unfold SFltb in *. rewrite IEEE_compare_swap.
    destruct (SFcompare x (S754_finite false mT eT)) as [[]|]; try discriminate; reflexivity.
Qed.

(** No number is at once not below 0 and below [(float) n] when [n <= 0]. *)
Lemma of_Z_nonpos_empty_range (x : spec_float) (n : Z) :
  n <= 0 ->
  SFltb x (S754_zero false) = false ->
  SFltb x (IEEE.of_Z IEEE.prec32 IEEE.emax32 n) = true -> False.
Proof.
  intros Hn H0 HT. destruct n as [|P|P]; [| lia |].
  - unfold IEEE.of_Z in HT. cbn in HT. congruence.
  - unfold IEEE.of_Z in HT. cbn [binary_normalize] in HT.
    unfold binary_round in HT.
    destruct (shl_align P 0 _) as [mz ez].
    destruct (binary_round_aux_sign IEEE.prec32 IEEE.emax32 true (Z.pos mz) ez loc_Exact)
      as [E|[E|[m [e E]]]]; [lia| | |]; rewrite E in HT;
      destruct x as [z|[]| |[] mx ex]; discriminate.
Qed.

(** [(float) n] is [n] for [0 < n <= 2^24]. *)
Lemma of_Z_exact (n : Z) :
  0 < n <= 2 ^ 24 ->
  exists mT eT,
    IEEE.of_Z IEEE.prec32 IEEE.emax32 n = S754_finite false mT eT /\
    bounded IEEE.prec32 IEEE.emax32 mT eT = true /\
    scaled32 mT eT = n * 2 ^ 149.
Proof.
  intros [Hn0 Hn1].
  destruct (Z.eq_dec n (2 ^ 24)) as [->|Hne].
  - exists 8388608%positive, 1. vm_compute. auto.
  - destruct n as [|P|P]; try lia.
    unfold IEEE.of_Z. cbn [binary_normalize].
    destruct (binary_round_exact IEEE.prec32 IEEE.emax32 prec32_pos prec32_lt_emax32 P 0)
      as [m2 [e2 [Hr [Hb Hv]]]].
    + rewrite emin32_eq; lia.
    + change (Z.pos (digits2_pos P)) with (Zdigits2 (Z.pos P)).
      apply Z.le_trans with (Zdigits2 (2 ^ 24 - 1)); [|vm_compute; discriminate].
      apply Zdigits2_le; lia.
    + fold (weight32 0). rewrite weight32_eq. apply Z.lt_le_trans with (2 ^ 24 * 2 ^ (0 + 149)).
      * apply Z.mul_lt_mono_pos_r; [apply Z.pow_pos_nonneg; lia | lia].
      * vm_compute. discriminate.
    + exists m2, e2. split; [exact Hr|]. split; [exact Hb|].
      fold (weight32 e2) (weight32 0) in Hv. rewrite (weight32_eq 0) in Hv.
      unfold scaled32, scaledValue. fold (weight32 e2). exact Hv.
Qed.

(** Truncation of a positive binary32 number, from its scaled value. *)
Lemma sf_trunc_scaled (m : positive) (e : Z) :
  -149 <= e -> IEEE.sf_trunc (S754_finite false m e) = scaled32 m e / 2 ^ 149.
Proof.
  intros He. unfold IEEE.sf_trunc, scaled32, scaledValue. fold (weight32 e). rewrite weight32_eq.
  destruct (Z.leb_spec 0 e) as [H|H].
  - rewrite Z.pow_add_r by lia. rewrite Z.mul_assoc.
    rewrite Z.div_mul by (apply Z.pow_nonzero; lia). reflexivity.
  - replace 149 with (e + 149 + - e) at 2 by lia.
    rewrite (Z.pow_add_r 2 (e + 149) (- e)) by lia.
    rewrite (Z.mul_comm (2 ^ (e + 149))).
    rewrite Z.div_mul_cancel_r; [reflexivity | |]; apply Z.pow_nonzero; lia.
Qed.

(** ** The oscillator *)

Section OscillatorRange.
#[local] Existing Instance IEEE.ieee_ops.


End OscillatorRange.


(** C1 fails on the code.  On the table 0, 1, 0 at index 0.5 the documented
    interpolation gives 0.5; [getNextSample] returns 1, the second sample. *)
Theorem getNextSample_ignores_fraction :
  let o := Run.oscAt (Run.Fq 1 2) (Run.Fq 1 4) in
  indexInRange o = true /\
  fst (getNextSample o) = Run.F 1 /\
  interpolatedSample o = Run.Fq 1 2 /\
  fst (getNextSample o) <> interpolatedSample o.
Proof.
  vm_compute. repeat split; try reflexivity. discriminate.
Qed.

Section OscillatorSample.
Context {A : FloatOps}.

(** The sample that [getNextSample] returns depends on the index only
    through [index0], its whole part: on the same table, two indices with
    the same whole part give the same sample, whatever their fractional
    parts are. *)
Lemma getNextSample_whole_index_only (o1 o2 : WavetableOscillator) :
  wavetable o1 = wavetable o2 ->
  f_to_uint (currentIndex o1) = f_to_uint (currentIndex o2) ->
  fst (getNextSample o1) = fst (getNextSample o2).
Proof.
  intros Ht Hi. unfold getNextSample. cbn [fst]. rewrite Ht, Hi. reflexivity.
Qed.

End OscillatorSample.


(** ** Lists updated in place *)

Section AlterNth.
Context {X : Type}.
Implicit Types (f : X -> X) (l : list X) (i j : nat).

Lemma length_alter_nth f i l : length (alter_nth f i l) = length l.
Proof.
  revert i. induction l as [|x r IH]; intros [|i]; simpl; auto.
Qed.

Lemma nth_error_alter_nth f i l j :
  nth_error (alter_nth f i l) j =
  if Nat.eqb j i then option_map f (nth_error l j) else nth_error l j.
Proof.
  revert i j. induction l as [|x r IH]; intros i j.
  - simpl. destruct j, (Nat.eqb _ i); reflexivity.
  - destruct i as [|i], j as [|j]; simpl; try reflexivity. apply IH.
Qed.

Lemma nth_alter_nth_eq f i l (d : X) :
  (i < length l)%nat -> nth i (alter_nth f i l) d = f (nth i l d).
Proof.
  revert i. induction l as [|x r IH]; intros [|i] H; simpl in *; try lia; auto.
  apply IH. lia.
Qed.

Lemma nth_alter_nth_ne f i l j (d : X) :
  i <> j -> nth j (alter_nth f i l) d = nth j l d.
Proof.
  revert i j. induction l as [|x r IH]; intros [|i] [|j] H; simpl; auto; try lia.
Qed.

End AlterNth.

(** ** The wavetable *)

Section Wavetable.
Context {A : FloatOps}.
Variable std_sin : double -> double.

Lemma length_sampleLoop (n : nat) (i harmonic : Z) (angleDelta currentAngle : double)
    (samples : list float) :
  length (sampleLoop std_sin n i harmonic angleDelta currentAngle samples)
  = length samples.
Proof.
  revert i currentAngle samples. induction n as [|n IH]; intros; simpl; auto.
  rewrite IH. apply length_alter_nth.
Qed.

(** What the inner loop leaves at position [j]: inside the range it walks,
    the old value plus the term of this harmonic, with the angle reached by
    repeated addition. *)
Lemma nth_sampleLoop (n i0 : nat) (harmonic : Z) (angleDelta currentAngle : double)
    (samples : list float) (j : nat) :
  (j < length samples)%nat ->
  nth j (sampleLoop std_sin n (Z.of_nat i0) harmonic angleDelta currentAngle samples) f_zero
  = if (Nat.leb i0 j && Nat.ltb j (i0 + n))%bool
    then f_add (nth j samples f_zero)
           (f_div (f_of_double (std_sin (angleAfter (j - i0) angleDelta currentAngle)))
                  (f_of_int (harmonic + 1)))
    else nth j samples f_zero.
Proof.
  revert i0 currentAngle samples.
  induction n as [|n IH]; intros i0 a samples Hj.
  - simpl. replace (i0 + 0)%nat with i0 by lia.
    destruct (Nat.leb_spec i0 j), (Nat.ltb_spec j i0); simpl; auto; lia.
  - cbn [sampleLoop]. replace (Z.of_nat i0 + 1) with (Z.of_nat (S i0)) by lia.
    rewrite IH by (rewrite length_alter_nth; exact Hj).
    rewrite Nat2Z.id.
    destruct (Nat.eq_dec i0 j) as [->|Hne].
    + rewrite nth_alter_nth_eq by exact Hj.
      replace (j - j)%nat with 0%nat by lia. simpl angleAfter.
      destruct (Nat.leb_spec (S j) j), (Nat.leb_spec j j),
        (Nat.ltb_spec j (j + S n)); simpl; auto; lia.
    + rewrite nth_alter_nth_ne by exact Hne.
      destruct (Nat.leb_spec (S i0) j), (Nat.leb_spec i0 j),
        (Nat.ltb_spec j (S i0 + n)), (Nat.ltb_spec j (i0 + S n));
        simpl; auto; try lia.
      replace (j - i0)%nat with (S (j - S i0)) by lia. reflexivity.
Qed.

Lemma length_harmonicLoop (hs : list Z) (harmonic tblSize : Z) (samples : list float) :
  length (harmonicLoop std_sin hs harmonic tblSize samples) = length samples.
Proof.
  revert harmonic samples. induction hs as [|h rest IH]; intros; simpl; auto.
  rewrite IH, length_alter_nth. apply length_sampleLoop.
Qed.

Lemma harmonicLoop_guard (hs : list Z) (harmonic tblSize : Z) (samples : list float) :
  hs <> [] ->
  length samples = S (Z.to_nat tblSize) ->
  read (harmonicLoop std_sin hs harmonic tblSize samples) tblSize
  = read (harmonicLoop std_sin hs harmonic tblSize samples) 0.
Proof.
  revert harmonic samples. induction hs as [|h rest IH]; intros harmonic samples Hne Hlen.
  - contradiction.
  - cbn [harmonicLoop].
    set (s1 := sampleLoop _ _ _ _ _ _ samples).
    assert (Hs1 : length s1 = S (Z.to_nat tblSize))
      by (unfold s1; rewrite length_sampleLoop; exact Hlen).
    destruct rest as [|h' rest'].
    + cbn [harmonicLoop]. unfold read at 1 3.
      rewrite nth_alter_nth_eq by lia.
      change (Z.to_nat 0) with 0%nat.
      destruct (Nat.eq_dec (Z.to_nat tblSize) 0) as [E|E].
      * rewrite E. rewrite nth_alter_nth_eq by lia. reflexivity.
      * rewrite nth_alter_nth_ne by exact E. reflexivity.
    + apply IH; [discriminate|]. rewrite length_alter_nth. exact Hs1.
Qed.

(** C6.  The table that [createWavetable] builds has [tableSize + 1] samples
    and its last one, the guard sample at position [tableSize], is the sample
    at position 0. *)
Theorem createWavetable_guard (tblSize : Z) :
  0 <= tblSize ->
  getNumChannels (createWavetable std_sin tblSize) = 1%nat /\
  getNumSamples (createWavetable std_sin tblSize) = tblSize + 1 /\
  read (getReadPointer (createWavetable std_sin tblSize) 0) tblSize
  = read (getReadPointer (createWavetable std_sin tblSize) 0) 0.
Proof.
  intros H.
  assert (Hlen : length (repeat f_zero (Z.to_nat (tblSize + 1))) = S (Z.to_nat tblSize))
    by (rewrite repeat_length; lia).
  unfold createWavetable, getNumSamples, getReadPointer, clearedBuffer.
  cbn [repeat nth getNumChannels length].
  repeat split.
  - rewrite length_harmonicLoop, Hlen. lia.
  - apply harmonicLoop_guard; [discriminate | exact Hlen].
Qed.

End Wavetable.

(** The table of the source, of size [1 << 24], in IEEE arithmetic. *)
Lemma createWavetable_guard_witness :
  0 <= SineWaveSound_tableSize /\
  getNumChannels (@createWavetable IEEE.ieee_ops Run.sinStandIn SineWaveSound_tableSize)
  = 1%nat /\
  getNumSamples (@createWavetable IEEE.ieee_ops Run.sinStandIn SineWaveSound_tableSize)
  = SineWaveSound_tableSize + 1 /\
  read (getReadPointer
          (@createWavetable IEEE.ieee_ops Run.sinStandIn SineWaveSound_tableSize) 0)
       SineWaveSound_tableSize
  = read (getReadPointer
            (@createWavetable IEEE.ieee_ops Run.sinStandIn SineWaveSound_tableSize) 0) 0.
Proof.
  assert (H : 0 <= SineWaveSound_tableSize) by (unfold SineWaveSound_tableSize; lia).
  split; [exact H|].
  exact (@createWavetable_guard IEEE.ieee_ops Run.sinStandIn SineWaveSound_tableSize H).
Defined.

(** ** Rendering *)

Section Rendering.
Context {A : FloatOps}.

Lemma nth_alter_nth_default {X : Type} (g : X -> X) (i : nat) (l : list X) (d : X) :
  g d = d -> nth i (alter_nth g i l) d = g (nth i l d).
Proof.
  intros Hd. destruct (Nat.lt_ge_cases i (length l)) as [H|H].
  - apply nth_alter_nth_eq, H.
  - rewrite !nth_overflow, Hd; auto. rewrite length_alter_nth. exact H.
Qed.

Lemma getNumChannels_addSample (b : AudioSampleBuffer) (ch : nat) (pos : Z) (x : float) :
  getNumChannels (addSample b ch pos x) = getNumChannels b.
Proof.
  unfold addSample, getNumChannels. destruct (0 <=? pos); auto.
  apply length_alter_nth.
Qed.

Lemma getNumChannels_addToChannels (i : nat) (b : AudioSampleBuffer) (pos : Z) (x : float) :
  getNumChannels (addToChannels i b pos x) = getNumChannels b.
Proof.
  revert b. induction i as [|i IH]; intros b; simpl; auto.
  rewrite IH. apply getNumChannels_addSample.
Qed.

(** [addSample] adds to one position of one channel and touches no other. *)
Lemma getSample_addSample (b : AudioSampleBuffer) (ch : nat) (pos : Z) (x : float)
    (c : nat) (p : Z) :
  getSample (addSample b ch pos x) c p =
  if (Nat.eqb c ch && (p =? pos))%bool
  then option_map (fun old => f_add old x) (getSample b c p)
  else getSample b c p.
Proof.
  unfold addSample, getSample.
  destruct (Z.eqb_spec p pos) as [->|Hp].
  - destruct (Z.leb_spec 0 pos) as [H0|H0].
    + destruct (Nat.eqb_spec c ch) as [->|Hc]; simpl.
      * rewrite nth_alter_nth_default by (destruct (Z.to_nat pos); reflexivity).
        rewrite nth_error_alter_nth, Nat.eqb_refl. reflexivity.
      * rewrite nth_alter_nth_ne by auto. reflexivity.
    + destruct (Nat.eqb c ch); reflexivity.
  - rewrite andb_false_r.
    destruct (Z.leb_spec 0 pos) as [H0|H0]; [|reflexivity].
    destruct (Z.leb_spec 0 p) as [H1|H1]; [|reflexivity].
    destruct (Nat.eq_dec c ch) as [->|Hc].
    + rewrite nth_alter_nth_default by (destruct (Z.to_nat pos); reflexivity).
      rewrite nth_error_alter_nth.
      destruct (Nat.eqb_spec (Z.to_nat p) (Z.to_nat pos)); [lia | reflexivity].
    + rewrite nth_alter_nth_ne by auto. reflexivity.
Qed.

Lemma getSample_addToChannels (i : nat) (b : AudioSampleBuffer) (pos : Z) (x : float)
    (c : nat) (p : Z) :
  getSample (addToChannels i b pos x) c p =
  if (Nat.ltb c i && (p =? pos))%bool
  then option_map (fun old => f_add old x) (getSample b c p)
  else getSample b c p.
Proof.
  revert b. induction i as [|i IH]; intros b.
  - reflexivity.
  - cbn [addToChannels]. rewrite IH, getSample_addSample.
    destruct (Nat.ltb_spec c i), (Nat.ltb_spec c (S i)), (Nat.eqb_spec c i);
      simpl; try lia; try reflexivity.
    all: destruct (p =? pos); reflexivity.
Qed.

Lemma getSample_no_channel (b : AudioSampleBuffer) (c : nat) (p : Z) :
  (getNumChannels b <= c)%nat -> getSample b c p = None.
Proof.
  intros H. unfold getSample. rewrite nth_overflow by exact H.
  destruct (0 <=? p); [destruct (Z.to_nat p)|]; reflexivity.
Qed.

(** The channel loop adds the sample at one position of every channel. *)
Lemma getSample_addToAllChannels (b : AudioSampleBuffer) (pos : Z) (x : float)
    (c : nat) (p : Z) :
  getSample (addToChannels (getNumChannels b) b pos x) c p =
  if p =? pos
  then option_map (fun old => f_add old x) (getSample b c p)
  else getSample b c p.
Proof.
  rewrite getSample_addToChannels.
  destruct (Nat.ltb_spec c (getNumChannels b)) as [H|H]; simpl; [reflexivity|].
  rewrite getSample_no_channel by exact H. destruct (p =? pos); reflexivity.
Qed.

Lemma mixedAt_nil (b : AudioSampleBuffer) (start : Z) (c : nat) (p : Z) :
  mixedAt b start [] c p = getSample b c p.
Proof.
  unfold mixedAt. simpl.
  destruct (Z.leb_spec start p), (Z.ltb_spec p (start + 0)); simpl; auto; lia.
Qed.

(** Mixing [x] at [start] and then [xs] from [start + 1] on is mixing
    [x :: xs] from [start] on. *)
Lemma mixedAt_cons (b b' : AudioSampleBuffer) (start : Z) (x : float) (xs : list float) :
  (forall c p, getSample b' c p =
               if p =? start
               then option_map (fun old => f_add old x) (getSample b c p)
               else getSample b c p) ->
  forall c p, mixedAt b' (start + 1) xs c p = mixedAt b start (x :: xs) c p.
Proof.
  intros Hb c p. unfold mixedAt. rewrite Hb. cbn [length].
  destruct (Z.eqb_spec p start) as [->|Hne].
  - replace (start - start) with 0 by lia. simpl.
    destruct (Z.leb_spec (start + 1) start), (Z.leb_spec start start),
      (Z.ltb_spec start (start + Z.pos (Pos.of_succ_nat (length xs))));
      simpl; auto; lia.
  - destruct (Z.leb_spec (start + 1) p), (Z.leb_spec start p),
      (Z.ltb_spec p (start + 1 + Z.of_nat (length xs))),
      (Z.ltb_spec p (start + Z.of_nat (S (length xs))));
      simpl; auto; try lia.
    replace (Z.to_nat (p - start)) with (S (Z.to_nat (p - (start + 1)))) by lia.
    reflexivity.
Qed.

Lemma mixedAt_outside (b : AudioSampleBuffer) (start : Z) (xs : list float)
    (c : nat) (p : Z) :
  p < start \/ start + Z.of_nat (length xs) <= p ->
  mixedAt b start xs c p = getSample b c p.
Proof.
  intros H. unfold mixedAt.
  destruct (Z.leb_spec start p), (Z.ltb_spec p (start + Z.of_nat (length xs)));
    simpl; auto; lia.
Qed.

Lemma map_seq_S {Y : Type} (f : nat -> Y) (m : nat) :
  map f (seq 0 (S m)) = f 0%nat :: map (fun j => f (S j)) (seq 0 m).
Proof. simpl. rewrite <- seq_shift, map_map. reflexivity. Qed.

End Rendering.

Section RenderingLoops.
Context {A : FloatOps}.

Lemma releaseSample_step (v : SineWaveVoice) (j : nat) :
  releaseSample v (S j)
  = releaseSample
      (set_tailOff (d_mul (tailOff v) lit_0_99) (set_osc (snd (getNextSample (osc v))) v)) j.
Proof. reflexivity. Qed.

Lemma sustainSample_step (v : SineWaveVoice) (j : nat) :
  sustainSample v (S j) = sustainSample (set_osc (snd (getNextSample (osc v))) v) j.
Proof. reflexivity. Qed.

Lemma releasedCount_le (n : nat) (t : double) : (releasedCount n t <= n)%nat.
Proof.
  revert t. induction n as [|n IH]; intros t; simpl; [lia|].
  destruct (d_le (d_mul t lit_0_99) lit_0_005); [lia|].
  specialize (IH (d_mul t lit_0_99)). lia.
Qed.

(** Before the last rendered sample, [tailOff] has stayed above 0.005. *)
Lemma releasedCount_not_silent (n : nat) (t : double) (k : nat) :
  (0 < k < releasedCount n t)%nat -> d_le (decayed k t) lit_0_005 = false.
Proof.
  revert t k. induction n as [|n IH]; intros t k; simpl; [lia|].
  destruct (d_le (d_mul t lit_0_99) lit_0_005) eqn:E; [lia|].
  intros Hk. destruct k as [|[|k]]; [lia | exact E |].
  cbn [decayed]. apply (IH (d_mul t lit_0_99) (S k)). lia.
Qed.

(** The loop stops short of [n] samples only by reaching 0.005. *)
Lemma releasedCount_short (n : nat) (t : double) :
  (releasedCount n t < n)%nat ->
  (0 < releasedCount n t)%nat /\
  d_le (decayed (releasedCount n t) t) lit_0_005 = true.
Proof.
  revert t. induction n as [|n IH]; intros t; simpl; [lia|].
  destruct (d_le (d_mul t lit_0_99) lit_0_005) eqn:E.
  - intros _. split; [lia | exact E].
  - intros H. destruct (IH (d_mul t lit_0_99)) as [_ H2]; [lia|].
    split; [lia | exact H2].
Qed.

(** The release loop, sample by sample. *)
Lemma releaseLoop_spec (n : nat) (v : SineWaveVoice) (b : AudioSampleBuffer) (start : Z) :
  let m := releasedCount n (tailOff v) in
  let r := releaseLoop n v b start in
  (forall c p, getSample (snd r) c p
               = mixedAt b start (map (releaseSample v) (seq 0 m)) c p) /\
  getNumChannels (snd r) = getNumChannels b /\
  fst r = (if (Nat.ltb 0 m && d_le (decayed m (tailOff v)) lit_0_005)%bool
           then set_notePlaying false
                  (clearCurrentNote
                     (set_tailOff (decayed m (tailOff v)) (set_osc (oscAfter m (osc v)) v)))
           else set_tailOff (decayed m (tailOff v)) (set_osc (oscAfter m (osc v)) v)).
Proof.
  revert v b start. induction n as [|n IH]; intros v b start.
  - simpl. repeat split.
    + intros. symmetry. apply mixedAt_nil.
    + destruct v; reflexivity.
  - cbn [releaseLoop releasedCount].
    destruct (getNextSample (osc v)) as [s o] eqn:Eg.
    set (x := f_of_double (d_mul (d_mul (d_of_float s) (level v)) (tailOff v))).
    set (b' := addToChannels (getNumChannels b) b start x).
    set (v1 := set_tailOff (d_mul (tailOff v) lit_0_99) (set_osc o v)).
    assert (Hx : releaseSample v 0 = x).
    { unfold releaseSample, oscSample. cbn [oscAfter decayed]. rewrite Eg. reflexivity. }
    assert (Hb : forall c p, getSample b' c p =
                   if p =? start
                   then option_map (fun old => f_add old x) (getSample b c p)
                   else getSample b c p)
      by (intros; apply getSample_addToAllChannels).
    assert (Hv1 : v1 = set_tailOff (d_mul (tailOff v) lit_0_99)
                         (set_osc (snd (getNextSample (osc v))) v))
      by (rewrite Eg; reflexivity).
    change (tailOff v1) with (d_mul (tailOff v) lit_0_99).
    destruct (d_le (d_mul (tailOff v) lit_0_99) lit_0_005) eqn:E.
    + cbn [fst snd seq map decayed oscAfter Nat.ltb Nat.leb andb].
      rewrite E, Hx. repeat split.
      * intros c p. rewrite <- (mixedAt_cons b b' start x [] Hb).
        symmetry. apply mixedAt_nil.
      * apply getNumChannels_addToChannels.
      * rewrite Eg. reflexivity.
    + destruct (IH v1 b' (start + 1)) as [H1 [H2 H3]].
      change (tailOff v1) with (d_mul (tailOff v) lit_0_99) in H1, H3.
      set (m := releasedCount n (d_mul (tailOff v) lit_0_99)) in *.
      repeat split.
      * intros c p. rewrite H1, map_seq_S, Hx.
        rewrite (mixedAt_cons b b' start x _ Hb).
        f_equal. f_equal. apply map_ext. intros j.
        rewrite releaseSample_step, <- Hv1. reflexivity.
      * rewrite H2. apply getNumChannels_addToChannels.
      * rewrite H3. cbn [decayed oscAfter]. rewrite Eg. cbn [snd].
        change (Nat.ltb 0 (S m)) with true.
        destruct m; [cbn [decayed andb Nat.ltb Nat.leb]; rewrite E|]; reflexivity.
Qed.

(** The sustain loop, sample by sample. *)
Lemma sustainLoop_spec (n : nat) (v : SineWaveVoice) (b : AudioSampleBuffer) (start : Z) :
  let r := sustainLoop n v b start in
  (forall c p, getSample (snd r) c p
               = mixedAt b start (map (sustainSample v) (seq 0 n)) c p) /\
  getNumChannels (snd r) = getNumChannels b /\
  fst r = set_osc (oscAfter n (osc v)) v.
Proof.
  revert v b start. induction n as [|n IH]; intros v b start.
  - simpl. repeat split.
    + intros. symmetry. apply mixedAt_nil.
    + destruct v; reflexivity.
  - cbn [sustainLoop].
    destruct (getNextSample (osc v)) as [s o] eqn:Eg.
    set (x := f_of_double (d_mul (d_of_float s) (level v))).
    set (b' := addToChannels (getNumChannels b) b start x).
    assert (Hx : sustainSample v 0 = x).
    { unfold sustainSample, oscSample. cbn [oscAfter]. rewrite Eg. reflexivity. }
    assert (Hb : forall c p, getSample b' c p =
                   if p =? start
                   then option_map (fun old => f_add old x) (getSample b c p)
                   else getSample b c p)
      by (intros; apply getSample_addToAllChannels).
    destruct (IH (set_osc o v) b' (start + 1)) as [H1 [H2 H3]].
    repeat split.
    + intros c p. rewrite H1, map_seq_S, Hx.
      rewrite (mixedAt_cons b b' start x _ Hb).
      f_equal. f_equal. apply map_ext. intros j.
      rewrite sustainSample_step, Eg. reflexivity.
    + rewrite H2. apply getNumChannels_addToChannels.
    + rewrite H3. cbn [oscAfter]. rewrite Eg. reflexivity.
Qed.

End RenderingLoops.

Section RenderNextBlock.
Context {A : FloatOps}.

Lemma nth_map_seq {Y : Type} (f : nat -> Y) (m k : nat) (d : Y) :
  (k < m)%nat -> nth k (map f (seq 0 m)) d = f k.
Proof.
  intros H. rewrite (nth_indep _ d (f 0%nat)) by (rewrite length_map, length_seq; exact H).
  rewrite (map_nth f (seq 0 m) 0%nat k), seq_nth by exact H. reflexivity.
Qed.

Lemma mixedAt_inside (b : AudioSampleBuffer) (start : Z) (xs : list float)
    (c : nat) (p : Z) :
  start <= p < start + Z.of_nat (length xs) ->
  mixedAt b start xs c p
  = option_map (fun old => f_add old (nth (Z.to_nat (p - start)) xs f_zero))
      (getSample b c p).
Proof.
  intros H. unfold mixedAt.
  destruct (Z.leb_spec start p), (Z.ltb_spec p (start + Z.of_nat (length xs)));
    simpl; auto; lia.
Qed.

Lemma length_voiceOutput (v : SineWaveVoice) (n : nat) :
  (length (voiceOutput v n) <= n)%nat.
Proof.
  unfold voiceOutput.
  destruct (notePlaying v); [|simpl; lia].
  destruct (d_gt (tailOff v) d_zero); rewrite length_map, length_seq;
    [apply releasedCount_le | lia].
Qed.

(** The buffer after [renderNextBlock] is the buffer before with the
    voice's output mixed in, and keeps its channels. *)
Lemma renderNextBlock_mixes (v : SineWaveVoice) (b : AudioSampleBuffer)
    (start numSamples : Z) :
  (forall c p,
      getSample (snd (renderNextBlock v b start numSamples)) c p
      = mixedAt b start (voiceOutput v (Z.to_nat numSamples)) c p) /\
  getNumChannels (snd (renderNextBlock v b start numSamples)) = getNumChannels b.
Proof.
  unfold renderNextBlock, voiceOutput.
  destruct (notePlaying v).
  - destruct (d_gt (tailOff v) d_zero).
    + destruct (releaseLoop_spec (Z.to_nat numSamples) v b start) as [H1 [H2 _]].
      split; assumption.
    + destruct (sustainLoop_spec (Z.to_nat numSamples) v b start) as [H1 [H2 _]].
      split; assumption.
  - split; [|reflexivity]. intros. symmetry. apply mixedAt_nil.
Qed.

(** C4.  A releasing voice renders [m] samples of the block, where [m] is
    the number of the first sample after which [tailOff] is 0.005 or less,
    or the whole block when there is none.  The sample at offset [j] adds
    [float (oscillator sample * level * tailOff)] to every channel, with the
    [tailOff] reached after [j] multiplications by 0.99; every other position
    of the buffer, in particular each one from [startSample + m] on, is
    unchanged.  When [tailOff] has come to 0.005 or less the voice is Idle;
    otherwise the whole block was rendered and the voice still plays its
    note. *)
Theorem renderNextBlock_releasing (v : SineWaveVoice) (outputBuffer : AudioSampleBuffer)
    (startSample numSamples : Z) :
  Releasing v ->
  let m := releasedCount (Z.to_nat numSamples) (tailOff v) in
  let v' := fst (renderNextBlock v outputBuffer startSample numSamples) in
  let b' := snd (renderNextBlock v outputBuffer startSample numSamples) in
  (forall c p, startSample <= p < startSample + Z.of_nat m ->
     getSample b' c p
     = option_map
         (fun old =>
            f_add old
              (f_of_double
                 (d_mul (d_mul (d_of_float (oscSample (Z.to_nat (p - startSample)) (osc v)))
                               (level v))
                        (decayed (Z.to_nat (p - startSample)) (tailOff v)))))
         (getSample outputBuffer c p)) /\
  (forall c p, p < startSample \/ startSample + Z.of_nat m <= p ->
     getSample b' c p = getSample outputBuffer c p) /\
  tailOff v' = decayed m (tailOff v) /\
  osc v' = oscAfter m (osc v) /\
  level v' = level v /\
  (m <= Z.to_nat numSamples)%nat /\
  (forall k, (0 < k < m)%nat -> d_le (decayed k (tailOff v)) lit_0_005 = false) /\
  ((m < Z.to_nat numSamples)%nat ->
     (0 < m)%nat /\ d_le (decayed m (tailOff v)) lit_0_005 = true) /\
  ((0 < m)%nat -> d_le (decayed m (tailOff v)) lit_0_005 = true -> Idle v') /\
  (d_le (decayed m (tailOff v)) lit_0_005 = false ->
     m = Z.to_nat numSamples /\ notePlaying v' = true /\
     currentlyPlayingNote v' = currentlyPlayingNote v).
Proof.
  intros [Hplay Hrel] m v' b'.
  assert (Hr : renderNextBlock v outputBuffer startSample numSamples
               = releaseLoop (Z.to_nat numSamples) v outputBuffer startSample)
    by (unfold renderNextBlock; rewrite Hplay, Hrel; reflexivity).
  destruct (releaseLoop_spec (Z.to_nat numSamples) v outputBuffer startSample)
    as [H1 [_ H3]].
  fold m in H1, H3. unfold v', b'. rewrite Hr.
  assert (Hlen : length (map (releaseSample v) (seq 0 m)) = m)
    by (rewrite length_map, length_seq; reflexivity).
  assert (Hfields :
            tailOff (fst (releaseLoop (Z.to_nat numSamples) v outputBuffer startSample))
            = decayed m (tailOff v) /\
            osc (fst (releaseLoop (Z.to_nat numSamples) v outputBuffer startSample))
            = oscAfter m (osc v) /\
            level (fst (releaseLoop (Z.to_nat numSamples) v outputBuffer startSample))
            = level v).
  { rewrite H3.
    destruct (Nat.ltb 0 m && d_le (decayed m (tailOff v)) lit_0_005)%bool;
      repeat split. }
  destruct Hfields as [Ht [Ho Hl]].
  split; [|split; [|split; [|split; [|split; [|split; [|split; [|split; [|split]]]]]]]].
  - intros c p Hp. rewrite H1, mixedAt_inside by (rewrite Hlen; exact Hp).
    rewrite nth_map_seq by lia. reflexivity.
  - intros c p Hp. rewrite H1. apply mixedAt_outside. rewrite Hlen. exact Hp.
  - exact Ht.
  - exact Ho.
  - exact Hl.
  - apply releasedCount_le.
  - apply releasedCount_not_silent.
  - apply releasedCount_short.
  - intros Hm Hs. rewrite H3.
    replace (Nat.ltb 0 m) with true by (symmetry; apply Nat.ltb_lt; exact Hm).
    rewrite Hs. repeat split.
  - intros Hs. rewrite H3, Hs, andb_false_r.
    split; [|split; [exact Hplay | reflexivity]].
    destruct (Nat.lt_ge_cases m (Z.to_nat numSamples)) as [Hlt|Hge].
    + apply releasedCount_short in Hlt. fold m in Hlt. destruct Hlt as [_ Hlt].
      congruence.
    + pose proof (releasedCount_le (Z.to_nat numSamples) (tailOff v)). fold m in H. lia.
Qed.

(** C8.  [renderNextBlock] changes the buffer only by adding: with [xs] the
    output of the voice, which does not depend on the buffer and has at most
    [numSamples] samples, position [startSample + j] of every channel becomes
    its old value plus [xs[j]], and every other position, in particular each
    one outside [startSample, startSample + numSamples), is unchanged.  When
    the voice is not playing, neither the buffer nor the voice changes. *)
Theorem renderNextBlock_additive (v : SineWaveVoice) (outputBuffer : AudioSampleBuffer)
    (startSample numSamples : Z) :
  let xs := voiceOutput v (Z.to_nat numSamples) in
  let b' := snd (renderNextBlock v outputBuffer startSample numSamples) in
  (length xs <= Z.to_nat numSamples)%nat /\
  (forall c p, startSample <= p < startSample + Z.of_nat (length xs) ->
     getSample b' c p
     = option_map (fun old => f_add old (nth (Z.to_nat (p - startSample)) xs f_zero))
         (getSample outputBuffer c p)) /\
  (forall c p, p < startSample \/ startSample + Z.of_nat (length xs) <= p ->
     getSample b' c p = getSample outputBuffer c p) /\
  (forall c p, p < startSample \/ startSample + numSamples <= p ->
     getSample b' c p = getSample outputBuffer c p) /\
  getNumChannels b' = getNumChannels outputBuffer /\
  (notePlaying v = false ->
     renderNextBlock v outputBuffer startSample numSamples = (v, outputBuffer)).
Proof.
  intros xs b'.
  destruct (renderNextBlock_mixes v outputBuffer startSample numSamples) as [H1 H2].
  pose proof (length_voiceOutput v (Z.to_nat numSamples)) as Hlen.
  fold xs in H1, Hlen. fold b' in H1, H2.
  split; [exact Hlen|].
  split; [intros c p Hp; rewrite H1; apply mixedAt_inside; exact Hp|].
  split; [intros c p Hp; rewrite H1; apply mixedAt_outside; exact Hp|].
  split; [intros c p Hp; rewrite H1; apply mixedAt_outside; lia|].
  split; [exact H2|].
  intros Hidle. unfold renderNextBlock. rewrite Hidle. reflexivity.
Qed.

End RenderNextBlock.

(** A voice with [tailOff = 0.0051] renders two samples of a block of three
    that starts at position 1 and is then Idle: positions 0 and 3 keep their
    value, 1. *)
Lemma renderNextBlock_releasing_run :
  let r := renderNextBlock (Run.playingVoice (Run.Dq 51 10000)) Run.onesBlock 1 3 in
  releasedCount 3 (tailOff (Run.playingVoice (Run.Dq 51 10000))) = 2%nat /\
  notePlaying (fst r) = false /\
  currentlyPlayingNote (fst r) = -1 /\
  getSample (snd r) 0 0 = Some (Run.F 1) /\
  getSample (snd r) 0 1
  = Some (@f_add IEEE.ieee_ops (Run.F 1)
            (releaseSample (Run.playingVoice (Run.Dq 51 10000)) 0)) /\
  getSample (snd r) 0 2
  = Some (@f_add IEEE.ieee_ops (Run.F 1)
            (releaseSample (Run.playingVoice (Run.Dq 51 10000)) 1)) /\
  getSample (snd r) 0 3 = Some (Run.F 1) /\
  getSample (snd r) 1 3 = Some (Run.F 1).
Proof. vm_compute. repeat split. Qed.

Lemma renderNextBlock_releasing_witness :
  Releasing (Run.playingVoice (Run.Dq 51 10000)) /\
  Idle (fst (renderNextBlock (Run.playingVoice (Run.Dq 51 10000)) Run.onesBlock 1 3)) /\
  getSample (snd (renderNextBlock (Run.playingVoice (Run.Dq 51 10000)) Run.onesBlock 1 3)) 0 3
  = getSample Run.onesBlock 0 3.
Proof.
  assert (H : Releasing (Run.playingVoice (Run.Dq 51 10000)))
    by (split; vm_compute; reflexivity).
  pose proof (renderNextBlock_releasing
                (Run.playingVoice (Run.Dq 51 10000)) Run.onesBlock 1 3 H) as T.
  cbv zeta in T.
  destruct T as [_ [T2 [_ [_ [_ [_ [_ [_ [T9 _]]]]]]]]].
  split; [exact H|]. split.
  - apply T9; vm_compute; [lia | reflexivity].
  - apply T2. right. vm_compute. discriminate.
Defined.

Lemma renderNextBlock_additive_witness :
  notePlaying Run.freshVoice = false /\
  renderNextBlock Run.freshVoice Run.onesBlock 1 3 = (Run.freshVoice, Run.onesBlock).
Proof.
  assert (H : notePlaying Run.freshVoice = false) by reflexivity.
  split; [exact H|].
  exact (proj2 (proj2 (proj2 (proj2 (proj2
           (renderNextBlock_additive Run.freshVoice Run.onesBlock 1 3))))) H).
Defined.

(** A voice that is releasing note 69 is started on note 60 at full
    velocity, in IEEE arithmetic. *)
Lemma startNote_resets_witness :
  tailOff (startNote Run.hz440 (Run.playingVoice (Run.Dq 1 2)) 60 (Run.F 1) Run.smallSound)
  = @d_zero IEEE.ieee_ops /\
  currentIndex
    (osc (startNote Run.hz440 (Run.playingVoice (Run.Dq 1 2)) 60 (Run.F 1) Run.smallSound))
  = @f_zero IEEE.ieee_ops /\
  Sustaining (startNote Run.hz440 (Run.playingVoice (Run.Dq 1 2)) 60 (Run.F 1) Run.smallSound).
Proof.
  pose proof (@startNote_resets IEEE.ieee_ops ieee_laws Run.hz440
                (Run.playingVoice (Run.Dq 1 2)) 60 (Run.F 1) Run.smallSound) as T.
  cbv zeta in T.
  destruct T as [_ [T2 [T3 [_ [_ [_ [_ [T8 _]]]]]]]].
  split; [exact T2|]. split; [exact T3 | exact T8].
Defined.

(** * Further properties of the code *)

(** ** Rendering a sustained note *)

Section Sustain.
Context {A : FloatOps}.

Lemma oscAfter_keeps (k : nat) (o : WavetableOscillator) :
  wavetable (oscAfter k o) = wavetable o /\
  tableSize (oscAfter k o) = tableSize o /\
  tableDelta (oscAfter k o) = tableDelta o.
Proof.
  revert o. induction k as [|k IH]; intros o; [repeat split|].
  cbn [oscAfter]. destruct (IH (snd (getNextSample o))) as [H1 [H2 H3]].
  rewrite H1, H2, H3. repeat split.
Qed.

(** X1.  A sustaining voice renders the whole block: position [startSample + j]
    of every channel receives [float (oscillator sample j * level)], the
    other positions are unchanged, the oscillator has advanced by the block
    length and the voice is as it was otherwise, still sustaining. *)
Theorem renderNextBlock_sustaining (v : SineWaveVoice) (outputBuffer : AudioSampleBuffer)
    (startSample numSamples : Z) :
  Sustaining v ->
  let v' := fst (renderNextBlock v outputBuffer startSample numSamples) in
  let b' := snd (renderNextBlock v outputBuffer startSample numSamples) in
  (forall c p, startSample <= p < startSample + numSamples ->
     getSample b' c p
     = option_map
         (fun old =>
            f_add old
              (f_of_double
                 (d_mul (d_of_float (oscSample (Z.to_nat (p - startSample)) (osc v)))
                        (level v))))
         (getSample outputBuffer c p)) /\
  (forall c p, p < startSample \/ startSample + numSamples <= p ->
     getSample b' c p = getSample outputBuffer c p) /\
  v' = set_osc (oscAfter (Z.to_nat numSamples) (osc v)) v /\
  Sustaining v'.
Proof.
  intros [Hplay Hsus] v' b'.
  assert (Hr : renderNextBlock v outputBuffer startSample numSamples
               = sustainLoop (Z.to_nat numSamples) v outputBuffer startSample)
    by (unfold renderNextBlock; rewrite Hplay, Hsus; reflexivity).
  destruct (sustainLoop_spec (Z.to_nat numSamples) v outputBuffer startSample)
    as [H1 [_ H3]].
  unfold v', b'. rewrite Hr.
  assert (Hlen : length (map (sustainSample v) (seq 0 (Z.to_nat numSamples)))
                 = Z.to_nat numSamples)
    by (rewrite length_map, length_seq; reflexivity).
  split; [|split; [|split]].
  - intros c p Hp. rewrite H1, mixedAt_inside by (rewrite Hlen; lia).
    rewrite nth_map_seq by lia. reflexivity.
  - intros c p Hp. rewrite H1. apply mixedAt_outside. rewrite Hlen. lia.
  - exact H3.
  - rewrite H3. split; [exact Hplay | exact Hsus].
Qed.

(** X2.  A block of no samples, or of a negative number of them, changes neither
    the buffer nor the voice, whatever the state of the voice. *)
Theorem renderNextBlock_empty_block (v : SineWaveVoice) (outputBuffer : AudioSampleBuffer)
    (startSample numSamples : Z) :
  numSamples <= 0 ->
  renderNextBlock v outputBuffer startSample numSamples = (v, outputBuffer).
Proof.
  intros H. unfold renderNextBlock.
  replace (Z.to_nat numSamples) with 0%nat by lia.
  destruct (notePlaying v); [|reflexivity].
  destruct (d_gt (tailOff v) d_zero); reflexivity.
Qed.

(** X3.  Rendering never touches what [startNote] configured: the level, the
    sample rate, and the table, table size and increment of the oscillator. *)
Theorem renderNextBlock_keeps_configuration (v : SineWaveVoice)
    (outputBuffer : AudioSampleBuffer) (startSample numSamples : Z) :
  let v' := fst (renderNextBlock v outputBuffer startSample numSamples) in
  level v' = level v /\
  currentSampleRate v' = currentSampleRate v /\
  wavetable (osc v') = wavetable (osc v) /\
  tableSize (osc v') = tableSize (osc v) /\
  tableDelta (osc v') = tableDelta (osc v).
Proof.
  unfold renderNextBlock.
  destruct (notePlaying v); [|repeat split].
  destruct (d_gt (tailOff v) d_zero).
  - destruct (releaseLoop_spec (Z.to_nat numSamples) v outputBuffer startSample)
      as [_ [_ H3]].
    cbv zeta. rewrite H3.
    destruct (oscAfter_keeps
                (releasedCount (Z.to_nat numSamples) (tailOff v)) (osc v))
      as [K1 [K2 K3]].
    destruct (Nat.ltb 0 _ && d_le _ lit_0_005)%bool; cbn; auto.
  - destruct (sustainLoop_spec (Z.to_nat numSamples) v outputBuffer startSample)
      as [_ [_ H3]].
    cbv zeta. rewrite H3.
    destruct (oscAfter_keeps (Z.to_nat numSamples) (osc v)) as [K1 [K2 K3]].
    cbn; auto.
Qed.

End Sustain.

(** ** Rendering a block in two calls *)

Section BlockSplitting.
Context {A : FloatOps}.

Lemma sustainLoop_app (a b : nat) (v : SineWaveVoice) (buf : AudioSampleBuffer) (s : Z) :
  sustainLoop (a + b) v buf s
  = sustainLoop b (fst (sustainLoop a v buf s)) (snd (sustainLoop a v buf s))
      (s + Z.of_nat a).
Proof.
  revert v buf s. induction a as [|a IH]; intros v buf s.
  - cbn [Nat.add sustainLoop fst snd]. rewrite Z.add_0_r. reflexivity.
  - cbn [Nat.add sustainLoop].
    destruct (getNextSample (osc v)) as [x o].
    rewrite IH. f_equal. lia.
Qed.

Lemma releaseLoop_app (a b : nat) (v : SineWaveVoice) (buf : AudioSampleBuffer) (s : Z) :
  notePlaying v = true ->
  releaseLoop (a + b) v buf s
  = if notePlaying (fst (releaseLoop a v buf s))
    then releaseLoop b (fst (releaseLoop a v buf s)) (snd (releaseLoop a v buf s))
           (s + Z.of_nat a)
    else releaseLoop a v buf s.
Proof.
  revert v buf s. induction a as [|a IH]; intros v buf s Hp.
  - cbn [Nat.add releaseLoop fst snd]. rewrite Hp, Z.add_0_r. reflexivity.
  - cbn [Nat.add releaseLoop].
    destruct (getNextSample (osc v)) as [x o].
    destruct (d_le _ lit_0_005).
    + reflexivity.
    + rewrite IH by exact Hp.
      replace (s + 1 + Z.of_nat a) with (s + Z.of_nat (S a)) by lia.
      reflexivity.
Qed.

(** A releasing voice that the loop leaves playing is still releasing. *)
Lemma releaseLoop_still_releasing (a : nat) (v : SineWaveVoice)
    (buf : AudioSampleBuffer) (s : Z) :
  DecayKeepsReleasing ->
  d_gt (tailOff v) d_zero = true ->
  notePlaying (fst (releaseLoop a v buf s)) = true ->
  d_gt (tailOff (fst (releaseLoop a v buf s))) d_zero = true.
Proof.
  intros Hlaw. revert v buf s. induction a as [|a IH]; intros v buf s Ht Hp.
  - exact Ht.
  - cbn [releaseLoop] in *.
    destruct (getNextSample (osc v)) as [x o].
    cbn [tailOff set_tailOff] in *.
    destruct (d_le (d_mul (tailOff v) lit_0_99) lit_0_005) eqn:E.
    + cbn in Hp. discriminate.
    + apply IH; [|exact Hp]. cbn [tailOff set_tailOff]. apply Hlaw; assumption.
Qed.

(** X4.  Rendering [n1] samples and then [n2] more from where the first call
    stopped gives the buffer and the voice that one call for [n1 + n2]
    samples gives, whatever the voice does: nothing, sustain, release, or
    fall silent inside either part. *)
Theorem renderNextBlock_split (v : SineWaveVoice) (outputBuffer : AudioSampleBuffer)
    (startSample n1 n2 : Z) :
  DecayKeepsReleasing ->
  0 <= n1 -> 0 <= n2 ->
  renderNextBlock
    (fst (renderNextBlock v outputBuffer startSample n1))
    (snd (renderNextBlock v outputBuffer startSample n1))
    (startSample + n1) n2
  = renderNextBlock v outputBuffer startSample (n1 + n2).
Proof.
  intros Hlaw H1 H2.
  unfold renderNextBlock at 2 3 4.
  rewrite Z2Nat.inj_add by assumption.
  destruct (notePlaying v) eqn:Hp.
  - destruct (d_gt (tailOff v) d_zero) eqn:Ht.
    + rewrite (releaseLoop_app _ _ _ _ _ Hp).
      pose proof (releaseLoop_still_releasing (Z.to_nat n1) v outputBuffer startSample
                    Hlaw Ht) as Hstill.
      unfold renderNextBlock.
      destruct (notePlaying (fst (releaseLoop (Z.to_nat n1) v outputBuffer startSample))).
      * rewrite Hstill by reflexivity. rewrite Z2Nat.id by assumption. reflexivity.
      * destruct (releaseLoop (Z.to_nat n1) v outputBuffer startSample); reflexivity.
    + rewrite sustainLoop_app.
      destruct (sustainLoop_spec (Z.to_nat n1) v outputBuffer startSample) as [_ [_ H3]].
      unfold renderNextBlock. rewrite H3. cbn [notePlaying tailOff set_osc].
      rewrite Hp, Ht. rewrite <- H3, Z2Nat.id by assumption. reflexivity.
  - cbn [fst snd]. unfold renderNextBlock. rewrite Hp. reflexivity.
Qed.

End BlockSplitting.

(** The requirement on the decay holds in IEEE arithmetic. *)
Lemma IEEE_decay_keeps_releasing : @DecayKeepsReleasing IEEE.ieee_ops.
Proof.
  intros x Hx Hle. simpl in *. unfold IEEE.sf_gtb in *.
  assert (Hc : @lit_0_99 IEEE.ieee_ops
               = S754_finite false 8917127262193582 (-53)) by (vm_compute; reflexivity).
  assert (Hd : @lit_0_005 IEEE.ieee_ops
               = S754_finite false 5764607523034235 (-60)) by (vm_compute; reflexivity).
  simpl in Hc, Hd. rewrite Hc in *. rewrite Hd in *.
  destruct x as [[]|[]| |[] m e]; try discriminate Hx.
  - reflexivity.
  - cbn [SFmul xorb] in *.
    destruct (binary_round_aux_sign IEEE.prec64 IEEE.emax64 false
                (Z.pos (m * 8917127262193582)) (e + -53) loc_Exact)
      as [E|[E|[m' [e' E]]]]; [lia| | |]; rewrite E in *.
    + discriminate Hle.
    + reflexivity.
    + reflexivity.
Qed.

(** A releasing voice, rendered as one sample and then three, in IEEE
    arithmetic. *)
Lemma renderNextBlock_split_witness :
  @DecayKeepsReleasing IEEE.ieee_ops /\ 0 <= 1 /\ 0 <= 3 /\
  renderNextBlock
    (fst (renderNextBlock (Run.playingVoice (Run.Dq 51 10000)) Run.onesBlock 0 1))
    (snd (renderNextBlock (Run.playingVoice (Run.Dq 51 10000)) Run.onesBlock 0 1))
    (0 + 1) 3
  = renderNextBlock (Run.playingVoice (Run.Dq 51 10000)) Run.onesBlock 0 (1 + 3).
Proof.
  assert (H1 : 0 <= 1) by lia.
  assert (H3 : 0 <= 3) by lia.
  split; [exact IEEE_decay_keeps_releasing|].
  split; [exact H1|]. split; [exact H3|].
  exact (renderNextBlock_split (Run.playingVoice (Run.Dq 51 10000)) Run.onesBlock 0 1 3
           IEEE_decay_keeps_releasing H1 H3).
Defined.

(** ** The length of the tail *)

Section ReleasedCount.
Context {A : FloatOps}.

Lemma releasedCount_min (n N : nat) (t : double) :
  (n <= N)%nat -> releasedCount n t = Nat.min n (releasedCount N t).
Proof.
  revert N t. induction n as [|n IH]; intros N t H; [reflexivity|].
  destruct N as [|N]; [lia|]. cbn [releasedCount].
  destruct (d_le (d_mul t lit_0_99) lit_0_005); [lia|].
  rewrite (IH N) by lia. reflexivity.
Qed.

End ReleasedCount.

Section TailLength.
#[local] Existing Instance IEEE.ieee_ops.

(** X5.  In IEEE arithmetic a note released with tail-off sounds for exactly 528
    more samples.  [stopNote] with tail-off on a playing voice whose
    [tailOff] is 0 sets it to 1.0; a following [renderNextBlock] of fewer than
    528 samples leaves the voice playing its note, one of 528 samples or more
    renders 528 samples, leaves the rest of the block untouched and the voice
    Idle. *)
Theorem tail_off_lasts_528_samples (v : @SineWaveVoice IEEE.ieee_ops)
    (outputBuffer : @AudioSampleBuffer IEEE.ieee_ops) (startSample numSamples : Z) :
  notePlaying v = true ->
  d_eq (tailOff v) d_zero = true ->
  let v1 := stopNote v true in
  let r := renderNextBlock v1 outputBuffer startSample numSamples in
  tailOff v1 = d_one /\
  (numSamples < 528 ->
     notePlaying (fst r) = true /\
     currentlyPlayingNote (fst r) = currentlyPlayingNote v) /\
  (528 <= numSamples ->
     Idle (fst r) /\
     forall c p, startSample + 528 <= p ->
       getSample (snd r) c p = getSample outputBuffer c p) /\
  (forall c p, startSample <= p < startSample + Z.min numSamples 528 ->
     getSample (snd r) c p
     = option_map (fun old => f_add old (releaseSample v1 (Z.to_nat (p - startSample))))
         (getSample outputBuffer c p)).
Proof.
  intros Hp Hz v1 r.
  assert (Hv1 : v1 = set_tailOff d_one v) by (unfold v1, stopNote; rewrite Hz; reflexivity).
  assert (H529 : @releasedCount IEEE.ieee_ops 529 d_one = 528%nat)
    by (vm_compute; reflexivity).
  assert (Hsil : @d_le IEEE.ieee_ops (decayed 528 d_one) lit_0_005 = true)
    by (vm_compute; reflexivity).
  assert (Hr : r = releaseLoop (Z.to_nat numSamples) v1 outputBuffer startSample).
  { unfold r, renderNextBlock. rewrite Hv1. cbn [notePlaying tailOff set_tailOff].
    rewrite Hp. reflexivity. }
  destruct (releaseLoop_spec (Z.to_nat numSamples) v1 outputBuffer startSample)
    as [H1 [_ H3]].
  rewrite <- Hr in H1, H3.
  assert (Ht1 : tailOff v1 = d_one) by (rewrite Hv1; reflexivity).
  rewrite Ht1 in H1, H3.
  set (m := releasedCount (Z.to_nat numSamples) d_one) in *.
  assert (Hm : m = Nat.min (Z.to_nat numSamples) 528).
  { destruct (Nat.le_gt_cases (Z.to_nat numSamples) 529) as [Hle|Hgt].
    - unfold m. rewrite (releasedCount_min _ 529) by exact Hle. rewrite H529. lia.
    - pose proof (@releasedCount_min IEEE.ieee_ops 529 (Z.to_nat numSamples) d_one) as Hmin.
      fold m in Hmin. rewrite H529 in Hmin. lia. }
  assert (Hlen : length (map (releaseSample v1) (seq 0 m)) = m)
    by (rewrite length_map, length_seq; reflexivity).
  split; [exact Ht1|]. split; [|split].
  - intros Hn.
    assert (Hns : (Nat.ltb 0 m && d_le (decayed m d_one) lit_0_005)%bool = false).
    { destruct m as [|m']; [reflexivity|].
      rewrite (@releasedCount_not_silent IEEE.ieee_ops 529 d_one (S m'))
        by (rewrite H529; lia).
      apply andb_false_r. }
    rewrite H3, Hns, Hv1. split; [exact Hp | reflexivity].
  - intros Hn.
    assert (Hm528 : m = 528%nat) by lia.
    split.
    + rewrite H3, Hm528, Hsil. repeat split.
    + intros c p Hpos. rewrite H1. apply mixedAt_outside. rewrite Hlen. lia.
  - intros c p Hpos. rewrite H1, mixedAt_inside by (rewrite Hlen; lia).
    rewrite nth_map_seq by lia. reflexivity.
Qed.

End TailLength.

(** A voice sustaining note 69, released and rendered for 600 samples. *)
Lemma tail_off_lasts_528_samples_witness :
  notePlaying (Run.playingVoice (Run.D 0)) = true /\
  @d_eq IEEE.ieee_ops (tailOff (Run.playingVoice (Run.D 0))) d_zero = true /\
  Idle (fst (renderNextBlock (stopNote (Run.playingVoice (Run.D 0)) true)
               Run.onesBlock 0 600)).
Proof.
  assert (H1 : notePlaying (Run.playingVoice (Run.D 0)) = true) by reflexivity.
  assert (H2 : @d_eq IEEE.ieee_ops (tailOff (Run.playingVoice (Run.D 0))) d_zero = true)
    by (vm_compute; reflexivity).
  split; [exact H1|]. split; [exact H2|].
  pose proof (tail_off_lasts_528_samples (Run.playingVoice (Run.D 0)) Run.onesBlock 0 600
                H1 H2) as T.
  cbv zeta in T. destruct T as [_ [_ [T3 _]]].
  apply T3. lia.
Defined.

Lemma renderNextBlock_sustaining_witness :
  Sustaining (Run.playingVoice (Run.D 0)) /\
  Sustaining (fst (renderNextBlock (Run.playingVoice (Run.D 0)) Run.onesBlock 1 2)) /\
  getSample (snd (renderNextBlock (Run.playingVoice (Run.D 0)) Run.onesBlock 1 2)) 0 3
  = getSample Run.onesBlock 0 3.
Proof.
  assert (H : Sustaining (Run.playingVoice (Run.D 0))) by (split; reflexivity).
  pose proof (renderNextBlock_sustaining (Run.playingVoice (Run.D 0)) Run.onesBlock 1 2 H)
    as T.
  cbv zeta in T. destruct T as [_ [T2 [_ T4]]].
  split; [exact H|]. split; [exact T4|].
  apply T2. right. lia.
Defined.

Lemma renderNextBlock_empty_block_witness :
  0 <= 0 /\
  renderNextBlock (Run.playingVoice (Run.D 0)) Run.onesBlock 1 0
  = (Run.playingVoice (Run.D 0), Run.onesBlock).
Proof.
  assert (H : 0 <= 0) by lia.
  split; [exact H|].
  exact (renderNextBlock_empty_block (Run.playingVoice (Run.D 0)) Run.onesBlock 1 0 H).
Defined.

(** ** The oscillator in IEEE arithmetic *)

Section OscillatorReads.
#[local] Existing Instance IEEE.ieee_ops.

(** One call of [getNextSample] keeps a finite index in the closed range. *)
Lemma getNextSample_step_closed (o : WavetableOscillator) :
  0 < tableSize o < 2 ^ 31 ->
  IEEE.finite32 (currentIndex o) = true ->
  IEEE.finite32 (tableDelta o) = true ->
  indexInClosedRange o = true ->
  deltaNonNegative o = true ->
  deltaAtMostTableSize o = true ->
  indexInClosedRange (snd (getNextSample o)) = true /\
  IEEE.finite32 (currentIndex (snd (getNextSample o))) = true.
Proof.
  intros Hn Fc Fd Hi Hd0 HdT.
  unfold indexInClosedRange, deltaNonNegative, deltaAtMostTableSize in *.
  cbn [getNextSample snd currentIndex tableSize] in *.
  cbn [f_gt f_zero f_of_int f_add f_sub IEEE.ieee_ops] in *.
  unfold IEEE.sf_gtb in *.
  apply andb_true_iff in Hi. destruct Hi as [C0 CT].
  apply negb_true_iff in C0. apply negb_true_iff in CT.
  apply negb_true_iff in Hd0. apply negb_true_iff in HdT.
  destruct (of_Z_int (tableSize o) Hn) as [mT [eT [HT [HbT HvT]]]].
  rewrite HT in *.
  destruct (wrap_closed_range (currentIndex o) (tableDelta o) mT eT HbT HvT
              Fc C0 CT Fd Hd0 HdT) as [Fn [N0 [NT _]]].
  split; [|exact Fn].
  apply andb_true_iff. split; apply negb_true_iff; assumption.
Qed.

(** X8.  In IEEE binary32 arithmetic the index never leaves the closed range
    [0, (float) tableSize], however many samples are taken, when it starts
    there as a finite number and the increment is a finite number of that
    range: the sum of the two rounds to at most twice [(float) tableSize],
    and the one subtraction of the wrap is exact. *)
Theorem oscAfter_index_in_closed_range (k : nat) (o : WavetableOscillator) :
  0 < tableSize o < 2 ^ 31 ->
  IEEE.finite32 (currentIndex o) = true ->
  IEEE.finite32 (tableDelta o) = true ->
  indexInClosedRange o = true ->
  deltaNonNegative o = true ->
  deltaAtMostTableSize o = true ->
  indexInClosedRange (oscAfter k o) = true /\
  IEEE.finite32 (currentIndex (oscAfter k o)) = true.
Proof.
  revert o. induction k as [|k IH]; intros o Hn Fc Fd Hi Hd0 HdT.
  - split; assumption.
  - cbn [oscAfter].
    destruct (getNextSample_step_closed o Hn Fc Fd Hi Hd0 HdT) as [Hi' Fc'].
    apply IH; assumption.
Qed.

(** X10.  In IEEE binary32 arithmetic, on a table of [tableSize + 1] samples
    with [tableSize <= 2^24] (so that [(float) tableSize] is [tableSize]), an
    index in [0, tableSize) makes [getNextSample] read two positions that
    both hold a sample of the table, the second one thanks to the guard
    sample; the value returned is computed from these two samples. *)
Theorem getNextSample_reads_in_bounds (o : WavetableOscillator) :
  tableSize o = getNumSamples (wavetable o) - 1 ->
  tableSize o <= 2 ^ 24 ->
  IEEE.is_binary32 (currentIndex o) = true ->
  indexInRange o = true ->
  0 <= index0 o < tableSize o /\
  index1 o = index0 o + 1 /\
  exists value0 value1 : float,
    nth_error (table o) (Z.to_nat (index0 o)) = Some value0 /\
    nth_error (table o) (Z.to_nat (index1 o)) = Some value1 /\
    fst (getNextSample o) = f_add value0 (f_mul (f_of_int 1) (f_sub value1 value0)).
Proof.
  intros HT H24 Vc Hi.
  assert (Hb : 0 <= index0 o < tableSize o).
  { unfold indexInRange, index0 in *.
    cbn [f_gt f_zero f_of_int f_to_uint IEEE.ieee_ops] in *.
    unfold IEEE.sf_gtb in *.
    apply andb_true_iff in Hi. destruct Hi as [C0 CT].
    apply negb_true_iff in C0.
    destruct (Z_le_gt_dec (tableSize o) 0) as [Hle|Hgt].
    { exfalso. exact (of_Z_nonpos_empty_range _ _ Hle C0 CT). }
    destruct (of_Z_exact (tableSize o) ltac:(lia)) as [mT [eT [ET [HbT HvT]]]].
    rewrite ET in CT.
    destruct (below_finite _ _ _ Vc C0 CT) as [Fc _].
    destruct (finite32_nonneg _ Fc C0) as [[z Ec]|[m [e [Ec Hbc]]]]; rewrite Ec in *.
    - simpl. lia.
    - destruct (bounded_facts IEEE.prec32 IEEE.emax32 _ _ Hbc) as [CA _].
      rewrite emin32_eq in CA. rewrite sf_trunc_scaled by exact CA.
      apply (SFltb_finite IEEE.prec32 IEEE.emax32 prec32_pos _ _ _ _ Hbc HbT) in CT.
      fold (scaled32 m e) (scaled32 mT eT) in CT. rewrite HvT in CT.
      assert (0 < scaled32 m e) by (apply scaledValue_pos; rewrite emin32_eq; lia).
      split.
      + apply Z.div_pos; lia.
      + apply Z.div_lt_upper_bound; lia. }
  assert (Hlen : Z.of_nat (length (table o)) = getNumSamples (wavetable o)) by reflexivity.
  assert (H1 : index1 o = index0 o + 1).
  { unfold index1, uint. apply Z.mod_small. lia. }
  split; [exact Hb|]. split; [exact H1|].
  exists (nth (Z.to_nat (index0 o)) (table o) f_zero),
         (nth (Z.to_nat (index1 o)) (table o) f_zero).
  split; [apply nth_error_nth'; lia|].
  split; [apply nth_error_nth'; lia|].
  reflexivity.
Qed.

(** X11.  In IEEE binary32 arithmetic, on a table of [tableSize + 1] samples
    with [tableSize <= 2^24]: when the advanced index, as computed, is
    [(float) tableSize], the test [> tableSize] keeps it, and the next call
    of [getNextSample] reads position [tableSize + 1], one past the guard
    sample, outside the table. *)
Theorem getNextSample_reads_past_table (o : WavetableOscillator) :
  tableSize o = getNumSamples (wavetable o) - 1 ->
  0 <= tableSize o <= 2 ^ 24 ->
  advancedIndex o = f_of_int (tableSize o) ->
  currentIndex (snd (getNextSample o)) = f_of_int (tableSize o) /\
  index0 (snd (getNextSample o)) = tableSize o /\
  index1 (snd (getNextSample o)) = getNumSamples (wavetable o) /\
  nth_error (table (snd (getNextSample o)))
    (Z.to_nat (index1 (snd (getNextSample o)))) = None.
Proof.
  intros HT H24 Hsum.
  assert (Hc : currentIndex (snd (getNextSample o)) = f_of_int (tableSize o)).
  { unfold advancedIndex in Hsum. cbn [getNextSample snd currentIndex]. rewrite Hsum.
    cbn [f_gt f_of_int IEEE.ieee_ops]. unfold IEEE.sf_gtb, SFltb.
    pose proof (IEEE_compare_refl_not_Lt
                  (IEEE.of_Z IEEE.prec32 IEEE.emax32 (tableSize o))) as Hr.
    destruct (SFcompare (IEEE.of_Z IEEE.prec32 IEEE.emax32 (tableSize o))
                (IEEE.of_Z IEEE.prec32 IEEE.emax32 (tableSize o))) as [[]|];
      try reflexivity. congruence. }
  assert (H0 : index0 (snd (getNextSample o)) = tableSize o).
  { unfold index0. rewrite Hc. cbn [f_to_uint f_of_int IEEE.ieee_ops].
    destruct (Z.eq_dec (tableSize o) 0) as [E|E]; [rewrite E; reflexivity|].
    destruct (of_Z_exact (tableSize o) ltac:(lia)) as [mT [eT [ET [HbT HvT]]]].
    rewrite ET.
    destruct (bounded_facts IEEE.prec32 IEEE.emax32 _ _ HbT) as [TA _].
    rewrite emin32_eq in TA. rewrite sf_trunc_scaled by exact TA.
    rewrite HvT. apply Z.div_mul. apply Z.pow_nonzero; lia. }
  assert (H1 : index1 (snd (getNextSample o)) = getNumSamples (wavetable o)).
  { unfold index1, uint. rewrite H0, Z.mod_small by lia. lia. }
  split; [exact Hc|]. split; [exact H0|]. split; [exact H1|].
  apply nth_error_None. rewrite H1.
  change (table (snd (getNextSample o))) with (table o).
  assert (Hlen : Z.of_nat (length (table o)) = getNumSamples (wavetable o)) by reflexivity.
  lia.
Qed.

End OscillatorReads.

(** Nine samples from index 1/2 with increment 3/2, on the table of size 2:
    the index passes through 2, the table size, and stays in [0, 2]. *)
Lemma oscAfter_index_in_closed_range_witness :
  let o := Run.oscAt (Run.Fq 1 2) (Run.Fq 3 2) in
  0 < tableSize o < 2 ^ 31 /\
  IEEE.finite32 (currentIndex o) = true /\
  IEEE.finite32 (tableDelta o) = true /\
  indexInClosedRange o = true /\
  deltaNonNegative o = true /\
  deltaAtMostTableSize o = true /\
  indexInClosedRange (oscAfter 9 o) = true.
Proof.
  intros o.
  assert (H0 : 0 < tableSize o < 2 ^ 31) by (split; reflexivity).
  assert (H1 : IEEE.finite32 (currentIndex o) = true) by (vm_compute; reflexivity).
  assert (H2 : IEEE.finite32 (tableDelta o) = true) by (vm_compute; reflexivity).
  assert (H3 : indexInClosedRange o = true) by (vm_compute; reflexivity).
  assert (H4 : deltaNonNegative o = true) by (vm_compute; reflexivity).
  assert (H5 : deltaAtMostTableSize o = true) by (vm_compute; reflexivity).
  split; [exact H0|]. split; [exact H1|]. split; [exact H2|]. split; [exact H3|].
  split; [exact H4|]. split; [exact H5|].
  exact (proj1 (oscAfter_index_in_closed_range 9 o H0 H1 H2 H3 H4 H5)).
Defined.

(** At index 1/2 of the table 0, 1, 0 the call reads positions 0 and 1. *)
Lemma getNextSample_reads_in_bounds_witness :
  let o := Run.oscAt (Run.Fq 1 2) (Run.Fq 1 4) in
  tableSize o = getNumSamples (wavetable o) - 1 /\
  tableSize o <= 2 ^ 24 /\
  IEEE.is_binary32 (currentIndex o) = true /\
  indexInRange o = true /\
  0 <= index0 o < tableSize o.
Proof.
  intros o.
  assert (H1 : tableSize o = getNumSamples (wavetable o) - 1) by reflexivity.
  assert (H2 : tableSize o <= 2 ^ 24) by (vm_compute; discriminate).
  assert (H3 : IEEE.is_binary32 (currentIndex o) = true) by (vm_compute; reflexivity).
  assert (H4 : indexInRange o = true) by (vm_compute; reflexivity).
  split; [exact H1|]. split; [exact H2|]. split; [exact H3|]. split; [exact H4|].
  exact (proj1 (getNextSample_reads_in_bounds o H1 H2 H3 H4)).
Defined.

(** From index 1/2 an increment of 3/2 brings the index to 2, the table
    size; the call after that reads position 3 of a table of 3 samples. *)
Lemma getNextSample_reads_past_table_witness :
  let o := Run.oscAt (Run.Fq 1 2) (Run.Fq 3 2) in
  tableSize o = getNumSamples (wavetable o) - 1 /\
  0 <= tableSize o <= 2 ^ 24 /\
  advancedIndex o = @f_of_int IEEE.ieee_ops (tableSize o) /\
  index1 (snd (getNextSample o)) = 3.
Proof.
  intros o.
  assert (H1 : tableSize o = getNumSamples (wavetable o) - 1) by reflexivity.
  assert (H2 : 0 <= tableSize o <= 2 ^ 24) by (vm_compute; split; discriminate).
  assert (H3 : advancedIndex o = @f_of_int IEEE.ieee_ops (tableSize o))
    by (vm_compute; reflexivity).
  split; [exact H1|]. split; [exact H2|]. split; [exact H3|].
  exact (proj1 (proj2 (proj2 (getNextSample_reads_past_table o H1 H2 H3)))).
Defined.

(** ** What the wavetable holds *)

Section WavetableAccumulation.
Context {A : FloatOps}.
Variable std_sin : double -> double.

(** The outer loop adds to every position below [tableSize] the terms of the
    harmonics it goes through, in their order; the guard sample it rewrites
    after each harmonic is another position. *)
Lemma nth_harmonicLoop (hs : list Z) (harmonic tblSize : Z) (samples : list float)
    (j : nat) :
  (j < Z.to_nat tblSize)%nat ->
  length samples = S (Z.to_nat tblSize) ->
  nth j (harmonicLoop std_sin hs harmonic tblSize samples) f_zero
  = accumulatedHarmonics std_sin hs harmonic tblSize j (nth j samples f_zero).
Proof.
  intros Hj. revert harmonic samples.
  induction hs as [|h rest IH]; intros harmonic samples Hlen.
  - reflexivity.
  - cbn [harmonicLoop accumulatedHarmonics].
    rewrite IH by (rewrite length_alter_nth, length_sampleLoop; exact Hlen).
    rewrite nth_alter_nth_ne by lia.
    pose proof (nth_sampleLoop std_sin (Z.to_nat tblSize) 0 harmonic
                  (d_mul (d_div twoPi (d_of_int (uint (tblSize - 1)))) (d_of_int h))
                  d_zero samples j) as Hs.
    change (Z.of_nat 0) with 0 in Hs.
    rewrite Hs by lia. clear Hs.
    replace (Nat.leb 0 j && Nat.ltb j (0 + Z.to_nat tblSize))%bool with true.
    2:{ symmetry. apply andb_true_iff. split; [reflexivity|].
        apply Nat.ltb_lt. lia. }
    rewrite Nat.sub_0_r. reflexivity.
Qed.

(** X14.  What [createWavetable] leaves at every position [i] below
    [tableSize]: starting from 0.0f, the terms of the harmonics 1 to 8 added
    in that order in [float], the term of the harmonic [h] at position
    [harmonic] being [(float) std::sin (angle) / (harmonic + 1)] with [angle]
    reached from 0.0 by [i] additions of
    [twoPi / (double) (tableSize - 1) * h] in [double]. *)
Theorem createWavetable_sample_accumulation (tblSize i : Z) :
  0 <= i < tblSize ->
  read (getReadPointer (createWavetable std_sin tblSize) 0) i
  = accumulatedHarmonics std_sin harmonics 0 tblSize (Z.to_nat i) f_zero.
Proof.
  intros Hi.
  unfold createWavetable, getReadPointer, clearedBuffer, read.
  cbn [repeat nth].
  rewrite nth_harmonicLoop by (rewrite ?repeat_length; lia).
  rewrite nth_repeat. reflexivity.
Qed.

(** The accumulation, written out for the eight harmonics. *)
Lemma accumulatedHarmonics_harmonics (tblSize : Z) (i : nat) (acc : float) :
  accumulatedHarmonics std_sin harmonics 0 tblSize i acc
  = f_add (f_add (f_add (f_add (f_add (f_add (f_add (f_add acc
      (harmonicTerm std_sin tblSize 1 0 i))
      (harmonicTerm std_sin tblSize 2 1 i))
      (harmonicTerm std_sin tblSize 3 2 i))
      (harmonicTerm std_sin tblSize 4 3 i))
      (harmonicTerm std_sin tblSize 5 4 i))
      (harmonicTerm std_sin tblSize 6 5 i))
      (harmonicTerm std_sin tblSize 7 6 i))
      (harmonicTerm std_sin tblSize 8 7 i).
Proof. reflexivity. Qed.

End WavetableAccumulation.

(** Sample 3 of the table of the source. *)
Lemma createWavetable_sample_accumulation_witness :
  0 <= 3 < SineWaveSound_tableSize /\
  read (getReadPointer
          (@createWavetable IEEE.ieee_ops Run.sinStandIn SineWaveSound_tableSize) 0) 3
  = @accumulatedHarmonics IEEE.ieee_ops Run.sinStandIn harmonics 0
      SineWaveSound_tableSize (Z.to_nat 3) f_zero.
Proof.
  assert (H : 0 <= 3 < SineWaveSound_tableSize) by (unfold SineWaveSound_tableSize; lia).
  split; [exact H|].
  exact (@createWavetable_sample_accumulation IEEE.ieee_ops Run.sinStandIn
           SineWaveSound_tableSize 3 H).
Defined.

(** The angle is accumulated, not recomputed: in binary64, for the first
    harmonic of the table of the source, seven additions of [angleDelta] to
    0.0 do not give [7 * angleDelta]. *)
Lemma angleAfter_is_not_the_product :
  let angleDelta :=
    @d_mul IEEE.ieee_ops
      (@d_div IEEE.ieee_ops twoPi (Run.D (uint (SineWaveSound_tableSize - 1)))) (Run.D 1) in
  @angleAfter IEEE.ieee_ops 7 angleDelta d_zero
  <> @d_mul IEEE.ieee_ops (Run.D 7) angleDelta.
Proof. vm_compute. discriminate. Qed.

(** ** The oscillator that [startNote] builds *)

Section StartedOscillator.
Context {A : FloatOps}.
Variable std_sin : double -> double.
Variable getMidiNoteInHertz : Z -> double.

(** X6.  The oscillator that [startNote] builds on a sound whose table was
    made by [createWavetable] for [tableSize] wraps at that same [tableSize]:
    its table has [tableSize + 1] samples and the sample at [tableSize], which
    the reads just below the wrap use, is the sample at 0. *)
Theorem startNote_oscillator_matches_sound (tblSize : Z) (v : SineWaveVoice)
    (midiNoteNumber : Z) (velocity : float) :
  0 <= tblSize ->
  let o := osc (startNote getMidiNoteInHertz v midiNoteNumber velocity
                  (mkSound (createWavetable std_sin tblSize))) in
  tableSize o = tblSize /\
  getNumSamples (wavetable o) = tblSize + 1 /\
  length (table o) = S (Z.to_nat tblSize) /\
  read (table o) tblSize = read (table o) 0.
Proof.
  intros H o.
  assert (Hlen : length (repeat f_zero (Z.to_nat (tblSize + 1))) = S (Z.to_nat tblSize))
    by (rewrite repeat_length; lia).
  assert (Htab : table o
                 = harmonicLoop std_sin harmonics 0 tblSize
                     (repeat f_zero (Z.to_nat (tblSize + 1)))) by reflexivity.
  assert (Hl : length (table o) = S (Z.to_nat tblSize))
    by (rewrite Htab, length_harmonicLoop; exact Hlen).
  assert (Hn : getNumSamples (wavetable o) = tblSize + 1).
  { change (getNumSamples (wavetable o)) with (Z.of_nat (length (table o))).
    rewrite Hl. lia. }
  split; [|split; [exact Hn|split; [exact Hl|]]].
  - change (tableSize o) with (getNumSamples (wavetable o) - 1). rewrite Hn. lia.
  - rewrite Htab. apply harmonicLoop_guard; [discriminate | exact Hlen].
Qed.

End StartedOscillator.

(** A fresh voice started on a table of the size of the source, in IEEE
    arithmetic, every note at 440 Hz. *)
Lemma startNote_oscillator_matches_sound_witness :
  0 <= SineWaveSound_tableSize /\
  tableSize
    (osc (@startNote IEEE.ieee_ops Run.hz440 Run.freshVoice 69 (Run.F 1)
            (mkSound (@createWavetable IEEE.ieee_ops Run.sinStandIn
                        SineWaveSound_tableSize))))
  = SineWaveSound_tableSize.
Proof.
  assert (H : 0 <= SineWaveSound_tableSize) by (unfold SineWaveSound_tableSize; lia).
  split; [exact H|].
  exact (proj1 (@startNote_oscillator_matches_sound IEEE.ieee_ops Run.sinStandIn Run.hz440
                  SineWaveSound_tableSize Run.freshVoice 69 (Run.F 1) H)).
Defined.
